(** * Telegram music bot: the queue scheduler of [main.py]

    A shallow embedding of the per-chat queue, the playback flags and the
    [play_next] advance routine of [main.py], together with the command
    handlers that touch them and the queue snapshot written by [save_data]
    and read back by [load_data].

    Python dictionaries keyed by the chat identifier are finite maps
    ([gmap Z _]); [d.get(k)] is a lookup whose missing answer is falsy.
    Strings are sequences of ASCII characters.  The chat client, the
    resolver, the fetcher and the voice-call transport are outside the
    program: their answers are the fields of a [World] record that every
    handler receives.  The chat client is taken to deliver every message, so
    no handler is interrupted while it sends a reply.  A coroutine is
    followed from its entry up to the point where it returns or suspends in
    [asyncio.sleep]; what it does after the sleep is the handler
    [timer_elapsed]. *)

From stdpp Require Import gmap strings list fin_maps.
From Stdlib Require Import ZArith Lia Ascii.
From Stdlib Require Import DecimalString DecimalZ DecimalPos DecimalFacts.

Local Open Scope string_scope.
Local Open Scope list_scope.

(** ** Configuration *)

Module Config.
Definition MAX_QUEUE_SIZE : nat := 100.
Definition MAX_DOWNLOAD_SIZE : nat := 50.
End Config.

(** ** Python string primitives used by the program *)

Module Py.

(** [s.split(':')]: always at least one part. *)
Fixpoint split_colon (s : string) : list string :=
  match s with
  | EmptyString => [EmptyString]
  | String c s' =>
      if Ascii.eqb c ":"%char then EmptyString :: split_colon s'
      else match split_colon s' with
           | p :: ps => String c p :: ps
           | [] => [String c EmptyString]
           end
  end.

(** The characters [int()] skips around a number: space, [\t], [\n],
    [\v], [\f], [\r]. *)
Definition is_space (c : ascii) : bool :=
  let n := nat_of_ascii c in
  Nat.eqb n 32 || (Nat.leb 9 n && Nat.leb n 13).

Definition digit_value (c : ascii) : option Z :=
  let n := nat_of_ascii c in
  if Nat.leb 48 n && Nat.leb n 57 then Some (Z.of_nat (n - 48)) else None.

Fixpoint lstrip (l : list ascii) : list ascii :=
  match l with
  | c :: l' => if is_space c then lstrip l' else l
  | [] => []
  end.

Definition strip (l : list ascii) : list ascii :=
  rev (lstrip (rev (lstrip l))).

(** The digits of a decimal literal after its first digit: digits and
    single underscores, not ending in an underscore. *)
Fixpoint scan_digits (l : list ascii) (acc : Z) (prev_underscore : bool)
  : option Z :=
  match l with
  | [] => if prev_underscore then None else Some acc
  | c :: l' =>
      if Ascii.eqb c "_"%char then
        if prev_underscore then None else scan_digits l' acc true
      else
        match digit_value c with
        | Some d => scan_digits l' (10 * acc + d)%Z false
        | None => None
        end
  end.

(** An unsigned literal starts with a digit. *)
Definition unsigned_literal (l : list ascii) : option Z :=
  match l with
  | c :: l' =>
      match digit_value c with
      | Some d => scan_digits l' d false
      | None => None
      end
  | [] => None
  end.

(** [int(s)] in base 10 on ASCII text: [None] stands for [ValueError].
    Blanks around the number are skipped, one sign is allowed, the digits
    may be separated by single underscores.  The interpreter's limit on the
    number of digits is not modelled. *)
Definition int (s : string) : option Z :=
  match strip (String.list_ascii_of_string s) with
  | c :: l' =>
      if Ascii.eqb c "-"%char then Z.opp <$> unsigned_literal l'
      else if Ascii.eqb c "+"%char then unsigned_literal l'
      else unsigned_literal (c :: l')
  | [] => None
  end.

(** [str(n)] for an integer. *)
Definition str (n : Z) : string := NilZero.string_of_int (Z.to_int n).

(** [" ".join(l)]. *)
Definition join_space (l : list string) : string := String.concat " " l.

(** Truth value of a string and of a possibly missing boolean. *)
Definition truthy_str (s : string) : bool := negb (String.eqb s EmptyString).

Definition truthy (o : option bool) : bool := default false o.

End Py.

(** ** Estimated end of a stream (lines 749-763 of [play_next]) *)

(** What the inner [try] block computes before it sleeps: [Parsed t] when
    [total_seconds] was assigned [t], [ParseError] when [int] raised. *)
Inductive estimate :=
  | Parsed (total_seconds : Z)
  | ParseError.

Definition parse_duration (duration : string) : estimate :=
  match Py.split_colon duration with
  | [h; m; s] =>
      match Py.int h, Py.int m, Py.int s with
      | Some hours, Some minutes, Some seconds =>
          Parsed (hours * 3600 + minutes * 60 + seconds)%Z
      | _, _, _ => ParseError
      end
  | [m; s] =>
      match Py.int m, Py.int s with
      | Some minutes, Some seconds => Parsed (minutes * 60 + seconds)%Z
      | _, _ => ParseError
      end
  | _ => Parsed 180%Z
  end.

(** The argument of the [asyncio.sleep] that is executed. *)
Definition sleep_seconds (duration : string) : Z :=
  match parse_duration duration with
  | Parsed total_seconds => (total_seconds + 2)%Z
  | ParseError => 180%Z
  end.

(** ** Data model *)

(** [class QueueItem]; [added_at] is the reading of the clock when the
    object was constructed. *)
Record QueueItem := mkQueueItem {
  chat_id : Z;
  title : string;
  url : string;
  duration : string;
  requested_by : string;
  added_at : Z
}.

(** [class MusicBot]: the four dictionaries keyed by the chat identifier and
    the two counters of [stats] that the modelled handlers update.  The
    moderation tables [user_mutes] and [banned_users] and [users_served] are
    read or written by no handler modelled here. *)
Record MusicBot := mkMusicBot {
  queues : gmap Z (list QueueItem);
  now_playing : gmap Z QueueItem;
  is_playing : gmap Z bool;
  is_paused : gmap Z bool;
  songs_played : nat;
  commands_used : nat
}.

(** The object built by [MusicBot()] before [load_data] runs. *)
Definition new_bot : MusicBot :=
  {| queues := ∅; now_playing := ∅; is_playing := ∅; is_paused := ∅;
     songs_played := 0; commands_used := 0 |}.

(** The answers of the external collaborators.  A raised exception of a
    transport call is the answer [false]; [search_youtube] answers [None] for
    its [(None, None, None)]; [download_audio] answers [None] when the fetch
    failed. *)
Record World := mkWorld {
  search_youtube : string -> option (string * string * string);
  download_audio : string -> Z -> option string;
  join_group_call : Z -> string -> bool;
  change_stream : Z -> string -> bool;
  pause_stream : Z -> bool;
  resume_stream : Z -> bool;
  leave_group_call : Z -> bool
}.

(** The playback phase as the flags encode it.  The code has no flag for a
    fetch in progress: [is_playing] is already set while [play_next] waits
    for the download. *)
Inductive Phase := Idle | Streaming | Paused.

Definition playing (st : MusicBot) (cid : Z) : bool :=
  Py.truthy (is_playing st !! cid).

Definition paused (st : MusicBot) (cid : Z) : bool :=
  Py.truthy (is_paused st !! cid).

Definition phase (st : MusicBot) (cid : Z) : Phase :=
  if playing st cid then if paused st cid then Paused else Streaming
  else Idle.

(** [music_bot.queues.get(chat_id, [])] *)
Definition queue_of (st : MusicBot) (cid : Z) : list QueueItem :=
  default [] (queues st !! cid).

(** ** Field updates *)

Definition set_queues (f : gmap Z (list QueueItem) -> gmap Z (list QueueItem))
  (st : MusicBot) : MusicBot :=
  {| queues := f (queues st); now_playing := now_playing st;
     is_playing := is_playing st; is_paused := is_paused st;
     songs_played := songs_played st; commands_used := commands_used st |}.

Definition set_now_playing (f : gmap Z QueueItem -> gmap Z QueueItem)
  (st : MusicBot) : MusicBot :=
  {| queues := queues st; now_playing := f (now_playing st);
     is_playing := is_playing st; is_paused := is_paused st;
     songs_played := songs_played st; commands_used := commands_used st |}.

Definition set_is_playing (cid : Z) (b : bool) (st : MusicBot) : MusicBot :=
  {| queues := queues st; now_playing := now_playing st;
     is_playing := <[cid := b]> (is_playing st); is_paused := is_paused st;
     songs_played := songs_played st; commands_used := commands_used st |}.

Definition set_is_paused (cid : Z) (b : bool) (st : MusicBot) : MusicBot :=
  {| queues := queues st; now_playing := now_playing st;
     is_playing := is_playing st; is_paused := <[cid := b]> (is_paused st);
     songs_played := songs_played st; commands_used := commands_used st |}.

Definition count_song (st : MusicBot) : MusicBot :=
  {| queues := queues st; now_playing := now_playing st;
     is_playing := is_playing st; is_paused := is_paused st;
     songs_played := S (songs_played st); commands_used := commands_used st |}.

Definition count_command (st : MusicBot) : MusicBot :=
  {| queues := queues st; now_playing := now_playing st;
     is_playing := is_playing st; is_paused := is_paused st;
     songs_played := songs_played st; commands_used := S (commands_used st) |}.

(** ** [play_next] *)

(** How a call of [play_next] leaves its coroutine: returned because the
    queue was empty, or suspended in [asyncio.sleep] while [item] streams
    from [audio_path]. *)
Inductive playback :=
  | Returned
  | Sleeping (item : QueueItem) (audio_path : string) (seconds : Z).

(** The result of a call: the bot afterwards, the items it reported as
    failed on the way (the "Failed to download" and "Error playing" status
    messages, oldest first), and how the coroutine was left. *)
Record Advance := mkAdvance {
  bot : MusicBot;
  failed : list QueueItem;
  coroutine : playback
}.

Definition report_failed (queue_item : QueueItem) (a : Advance) : Advance :=
  {| bot := bot a; failed := queue_item :: failed a;
     coroutine := coroutine a |}.

(** Lines 704-707: the head leaves the queue and becomes now-playing. *)
Definition dequeue (cid : Z) (queue_item : QueueItem) (rest : list QueueItem)
  (st : MusicBot) : MusicBot :=
  set_is_paused cid false
    (set_is_playing cid true
       (set_now_playing (insert cid queue_item)
          (set_queues (insert cid rest) st))).

(** [join_group_call], and [change_stream] when it raised. *)
Definition start_stream (w : World) (cid : Z) (audio_path : string) : bool :=
  join_group_call w cid audio_path || change_stream w cid audio_path.

(** The fetch of an item followed by the hand-over to the transport: the
    path that now streams, or [None] when the download gave nothing or both
    transport calls raised. *)
Definition fetch_and_stream (w : World) (cid : Z) (queue_item : QueueItem)
  : option string :=
  match download_audio w (url queue_item) cid with
  | Some audio_path =>
      if Py.truthy_str audio_path && start_stream w cid audio_path
      then Some audio_path else None
  | None => None
  end.

(** The body of [play_next] on the queue [q] of the chat.  Each recursive
    call of the source reads again the queue it has just shortened, so the
    recursion is on that list; [play_next_unfold] states the recursive
    equation of the source. *)
Fixpoint play_next_queue (w : World) (cid : Z) (q : list QueueItem)
  (st : MusicBot) : Advance :=
  match q with
  | [] => {| bot := set_is_playing cid false st; failed := [];
             coroutine := Returned |}
  | queue_item :: rest =>
      let st1 := dequeue cid queue_item rest st in
      match fetch_and_stream w cid queue_item with
      | Some audio_path =>
          {| bot := count_song st1; failed := [];
             coroutine := Sleeping queue_item audio_path
                            (sleep_seconds (duration queue_item)) |}
      | None => report_failed queue_item (play_next_queue w cid rest st1)
      end
  end.

Definition play_next (w : World) (cid : Z) (st : MusicBot) : Advance :=
  play_next_queue w cid (queue_of st cid) st.

(** ** Completion signals *)

(** [stream_end_handler] for a [StreamAudioEnded] update. *)
Definition stream_end_handler (w : World) (cid : Z) (st : MusicBot)
  : Advance :=
  play_next w cid st.

(** The rest of [play_next] after its sleep (lines 765-772): the file is
    removed and [play_next] is entered again. *)
Definition timer_elapsed (w : World) (cid : Z) (st : MusicBot) : Advance :=
  play_next w cid st.

Inductive signal := TransportEnded | TimerElapsed.

Definition deliver (w : World) (sg : signal) (cid : Z) (st : MusicBot)
  : Advance :=
  match sg with
  | TransportEnded => stream_end_handler w cid st
  | TimerElapsed => timer_elapsed w cid st
  end.

(** ** Command handlers *)

(** What a handler reads from the incoming message and from the chat client
    about its sender. *)
Record Message := mkMessage {
  msg_chat : Z;                (* message.chat.id *)
  msg_in_group : bool;         (* chat.type is GROUP or SUPERGROUP *)
  msg_joined : option bool;    (* truth of member.joined_date, None if the lookup raised *)
  msg_command : list string;   (* message.command *)
  msg_mention : string;        (* message.from_user.mention *)
  msg_user : Z                 (* message.from_user.id *)
}.

(** ** [is_admin] *)

Inductive ChatMemberStatus :=
  | OWNER
  | ADMINISTRATOR
  | MEMBER
  | RESTRICTED
  | LEFT
  | BANNED.

(** What a call of a method of the chat client evaluates to: the coroutine
    object when the call is not awaited, the member once it is. *)
Inductive call_value :=
  | CoroutineObject
  | ChatMember (status : ChatMemberStatus).

(** [bot.get_chat_member(chat_id, user_id)] as [is_admin] writes it: the
    method is a coroutine function and [is_admin], a plain [def], calls it
    without [await], so the value is the coroutine object for every chat
    and user. *)
Definition get_chat_member_not_awaited (cid user : Z) : call_value :=
  CoroutineObject.

(** [member.status]; [None] stands for the [AttributeError] of an object
    without that attribute. *)
Definition status_of (member : call_value) : option ChatMemberStatus :=
  match member with
  | ChatMember status => Some status
  | CoroutineObject => None
  end.

(** [is_admin]: the bare [except] answers [False] when the [try] raised. *)
Definition is_admin (cid user : Z) : bool :=
  match status_of (get_chat_member_not_awaited cid user) with
  | Some ADMINISTRATOR | Some OWNER => true
  | Some _ => false
  | None => false
  end.

(** The text a handler answers with, by its meaning. *)
Inductive reply :=
  | GroupsOnly
  | NotInVoiceChat
  | MissingQuery
  | NoResults
  | QueueFull
  | NowPlaying (song : string)
  | AddedToQueue (position : nat) (song : string)
  | NotPlayingOrAlreadyPaused
  | MusicPaused
  | PauseFailed
  | NotPaused
  | MusicResumed
  | ResumeFailed
  | NoMusicPlaying
  | NotYourSong
  | Skipping
  | MusicStopped
  | StopFailed
  | PlaybackEnded
  | QueueAlreadyEmpty
  | Cleared (count : nat).

(** Lines 325-339 of [play_command]: the bounded append. *)
Inductive enqueued := Appended | CapacityError.

Definition enqueue (cid : Z) (queue_item : QueueItem) (st : MusicBot)
  : MusicBot * enqueued :=
  let st0 :=
    match queues st !! cid with
    | Some _ => st
    | None => set_queues (insert cid []) st
    end in
  let q := queue_of st0 cid in
  if Nat.leb Config.MAX_QUEUE_SIZE (length q) then (st0, CapacityError)
  else (set_queues (insert cid (q ++ [queue_item])%list) st0, Appended).

(** [play_command]; [now] is the clock when the item is constructed.  The
    answer after [play_next] is the one the handler sends once that call has
    come back.  The snapshot file that [save_data] rewrites is not part of
    [MusicBot]. *)
Definition play_command (w : World) (m : Message) (now : Z) (st : MusicBot)
  : MusicBot * reply * playback :=
  let st := count_command st in
  if negb (msg_in_group m) then (st, GroupsOnly, Returned)
  else if bool_decide (msg_joined m = Some false)
  then (st, NotInVoiceChat, Returned)
  else if Nat.ltb (length (msg_command m)) 2 then (st, MissingQuery, Returned)
  else
    let query := Py.join_space (tail (msg_command m)) in
    let cid := msg_chat m in
    match search_youtube w query with
    | None => (st, NoResults, Returned)
    | Some (t, u, d) =>
        if negb (Py.truthy_str t) then (st, NoResults, Returned)
        else
          let queue_item :=
            {| chat_id := cid; title := t; url := u; duration := d;
               requested_by := msg_mention m; added_at := now |} in
          match enqueue cid queue_item st with
          | (st1, CapacityError) => (st1, QueueFull, Returned)
          | (st1, Appended) =>
              if negb (playing st1 cid) || negb (paused st1 cid) then
                let a := play_next w cid st1 in
                (bot a, NowPlaying t, coroutine a)
              else
                (st1, AddedToQueue (length (queue_of st1 cid)) t, Returned)
          end
    end.

Definition pause_command (w : World) (cid : Z) (st : MusicBot)
  : MusicBot * reply :=
  let st := count_command st in
  if negb (playing st cid) || paused st cid
  then (st, NotPlayingOrAlreadyPaused)
  else if pause_stream w cid then (set_is_paused cid true st, MusicPaused)
  else (st, PauseFailed).

Definition resume_command (w : World) (cid : Z) (st : MusicBot)
  : MusicBot * reply :=
  let st := count_command st in
  if negb (paused st cid) then (st, NotPaused)
  else if resume_stream w cid then (set_is_paused cid false st, MusicResumed)
  else (st, ResumeFailed).

Definition skip_command (w : World) (m : Message) (st : MusicBot)
  : MusicBot * reply * playback :=
  let st := count_command st in
  let cid := msg_chat m in
  if negb (playing st cid) then (st, NoMusicPlaying, Returned)
  else
    let refused :=
      match now_playing st !! cid with
      | Some current_song =>
          negb (String.eqb (requested_by current_song) (msg_mention m))
          && negb (is_admin cid (msg_user m))
      | None => false
      end in
    if refused then (st, NotYourSong, Returned)
    else let a := play_next w cid st in (bot a, Skipping, coroutine a).

Definition stop_command (w : World) (cid : Z) (st : MusicBot)
  : MusicBot * reply :=
  let st := count_command st in
  if negb (playing st cid) then (st, NoMusicPlaying)
  else if leave_group_call w cid
  then (set_is_paused cid false (set_is_playing cid false st), MusicStopped)
  else (st, StopFailed).

(** [end_command]: the answer of [leave_group_call] is ignored. *)
Definition end_command (w : World) (cid : Z) (st : MusicBot)
  : MusicBot * reply :=
  let st := count_command st in
  let st1 := set_queues (alter (fun _ => []) cid) st in
  let st2 := set_now_playing (delete cid) st1 in
  (set_is_paused cid false (set_is_playing cid false st2), PlaybackEnded).

Definition clear_command (cid : Z) (st : MusicBot) : MusicBot * reply :=
  let st := count_command st in
  match queues st !! cid with
  | Some (x :: q) =>
      (set_queues (insert cid []) st, Cleared (length (x :: q)))
  | _ => (st, QueueAlreadyEmpty)
  end.

(** ** Reachable states *)

Inductive event :=
  | EvPlay (m : Message) (now : Z)
  | EvPause (cid : Z)
  | EvResume (cid : Z)
  | EvSkip (m : Message)
  | EvStop (cid : Z)
  | EvEnd (cid : Z)
  | EvClear (cid : Z)
  | EvSignal (sg : signal) (cid : Z).

Definition handle (w : World) (ev : event) (st : MusicBot) : MusicBot :=
  match ev with
  | EvPlay m now => (play_command w m now st).1.1
  | EvPause cid => (pause_command w cid st).1
  | EvResume cid => (resume_command w cid st).1
  | EvSkip m => (skip_command w m st).1.1
  | EvStop cid => (stop_command w cid st).1
  | EvEnd cid => (end_command w cid st).1
  | EvClear cid => (clear_command cid st).1
  | EvSignal sg cid => bot (deliver w sg cid st)
  end.

(** The states the handlers can produce from [start], the collaborators
    being free to answer differently at every event. *)
Inductive reachable (start : MusicBot) : MusicBot -> Prop :=
  | reachable_start : reachable start start
  | reachable_handle st w ev :
      reachable start st -> reachable start (handle w ev st).

Fixpoint run (w : World) (evs : list event) (st : MusicBot) : MusicBot :=
  match evs with
  | [] => st
  | ev :: evs' => run w evs' (handle w ev st)
  end.

(** ** The queue snapshot: [save_data] and [load_data] *)

(** The value [json.dump] writes and [json.load] returns.  An object keeps
    its members in order; its keys are distinct, as those of a Python
    dictionary are. *)
#[local] Unset Elimination Schemes.
Inductive Json :=
  | JNull
  | JBool (b : bool)
  | JInt (n : Z)
  | JStr (s : string)
  | JArr (elements : list Json)
  | JObj (members : list (string * Json)).
#[local] Set Elimination Schemes.

Fixpoint dict_get (key : string) (members : list (string * Json))
  : option Json :=
  match members with
  | [] => None
  | (k, v) :: members' =>
      if String.eqb k key then Some v else dict_get key members'
  end.

Definition item_to_json (item : QueueItem) : Json :=
  JObj [("chat_id", JInt (chat_id item));
        ("title", JStr (title item));
        ("url", JStr (url item));
        ("duration", JStr (duration item));
        ("requested_by", JStr (requested_by item))].

Definition queue_to_json (entry : Z * list QueueItem) : string * Json :=
  (Py.str entry.1, JArr (map item_to_json entry.2)).

(** [save_data]: the content of the queue file.  The dictionary is visited
    in the order of [map_to_list], not in insertion order; the order of the
    members of the ["queues"] object has no influence on [load_data] since
    its keys are distinct. *)
Definition save_data (st : MusicBot) : Json :=
  JObj [("queues", JObj (map queue_to_json (map_to_list (queues st))))].

(** [QueueItem(chat_id=item['chat_id'], ...)]; [None] stands for the
    [KeyError] or [TypeError] raised on the way.  [QueueItem] has typed
    fields here, so a member holding a value of another type than the one
    [save_data] writes is answered with [None] as well, although the source
    stores such a value as it is: files with such members are outside this
    development, and [item_typed] names the ones inside it. *)
Definition item_of_json (now : Z) (j : Json) : option QueueItem :=
  match j with
  | JObj item =>
      match dict_get "chat_id" item, dict_get "title" item,
            dict_get "url" item, dict_get "duration" item,
            dict_get "requested_by" item with
      | Some (JInt c), Some (JStr t), Some (JStr u), Some (JStr d),
        Some (JStr r) =>
          Some {| chat_id := c; title := t; url := u; duration := d;
                  requested_by := r; added_at := now |}
      | _, _, _, _, _ => None
      end
  | _ => None
  end.

(** The values a [for] loop over a JSON value visits; [None] when the value
    is not iterable. *)
Definition json_iter (j : Json) : option (list Json) :=
  match j with
  | JArr elements => Some elements
  | JObj members => Some (map (fun kv => JStr kv.1) members)
  | JStr s =>
      Some (map (fun c => JStr (String c EmptyString))
              (String.list_ascii_of_string s))
  | _ => None
  end.

(** The list comprehension of [load_data]; [now i] is the clock when the
    item at index [i] is constructed. *)
Fixpoint items_of_json (now : nat -> Z) (i : nat) (items : list Json)
  : option (list QueueItem) :=
  match items with
  | [] => Some []
  | item :: items' =>
      match item_of_json (now i) item with
      | Some queue_item => cons queue_item <$> items_of_json now (S i) items'
      | None => None
      end
  end.

(** The loop of [load_data] over the members of ["queues"]: the first
    exception ends the loop and keeps what was loaded before it. *)
Fixpoint load_entries (now : Z -> nat -> Z) (entries : list (string * Json))
  (qs : gmap Z (list QueueItem)) : gmap Z (list QueueItem) :=
  match entries with
  | [] => qs
  | (chat_id_str, items) :: entries' =>
      match Py.int chat_id_str with
      | Some cid =>
          match json_iter items ≫= items_of_json (now cid) 0 with
          | Some q => load_entries now entries' (<[cid := q]> qs)
          | None => qs
          end
      | None => qs
      end
  end.

(** [load_data] on the content of the queue file, [None] when the file does
    not exist. *)
Definition load_data (file : option Json) (now : Z -> nat -> Z)
  (st : MusicBot) : MusicBot :=
  match file with
  | Some (JObj data) =>
      match dict_get "queues" data with
      | Some (JObj entries) => set_queues (load_entries now entries) st
      | _ => st
      end
  | _ => st
  end.

(** Two track requests that differ at most in their creation time. *)
Definition same_request (a b : QueueItem) : Prop :=
  chat_id a = chat_id b /\ title a = title b /\ url a = url b /\
  duration a = duration b /\ requested_by a = requested_by b.

(** ** Vocabulary of the statements *)

(** A fetch that gives nothing: [download_audio] answered [None] or an empty
    path. *)
Definition download_fails (w : World) (cid : Z) (item : QueueItem) : Prop :=
  match download_audio w (url item) cid with
  | Some audio_path => Py.truthy_str audio_path = false
  | None => True
  end.

(** What a call of [play_next] did not discard: the item it left streaming,
    if any, followed by the queue. *)
Definition kept (cid : Z) (a : Advance) : list QueueItem :=
  match coroutine a with
  | Sleeping item _ _ => item :: queue_of (bot a) cid
  | Returned => queue_of (bot a) cid
  end.

(** The queues, the now-playing slots and the two flags of all sessions
    are the same in both states. *)
Definition same_sessions (st st' : MusicBot) : Prop :=
  queues st' = queues st /\
  now_playing st' = now_playing st /\
  is_playing st' = is_playing st /\
  is_paused st' = is_paused st.

(** A play message that passes the checks made before the search. *)
Definition well_formed (m : Message) : Prop :=
  msg_in_group m = true /\ msg_joined m <> Some false /\
  2 <= length (msg_command m).

(** The nominal length of a track as the duration string declares it, with
    the three-minute window for every string that does not parse. *)
Definition declared_length (duration : string) : Z :=
  match parse_duration duration with
  | Parsed total_seconds => total_seconds
  | ParseError => 180%Z
  end.

(** A session that is playing has an item in its slot. *)
Definition slot_filled_when_playing (st : MusicBot) : Prop :=
  forall cid, playing st cid = true -> is_Some (now_playing st !! cid).

(** The characters of a decimal numeral. *)
Definition digits (u : Decimal.uint) : list ascii :=
  String.list_ascii_of_string (NilEmpty.string_of_uint u).

(** A queue whose items were constructed again, the item at index [j]
    when the clock showed [now (i + j)]. *)
Fixpoint restamp (now : nat -> Z) (i : nat) (q : list QueueItem)
  : list QueueItem :=
  match q with
  | [] => []
  | item :: q' =>
      {| chat_id := chat_id item; title := title item; url := url item;
         duration := duration item; requested_by := requested_by item;
         added_at := now i |} :: restamp now (S i) q'
  end.

(** ** A sample world and sample requests *)

Module Sample.

Definition world : World :=
  {| search_youtube := fun query =>
       if String.eqb query "Believer"
       then Some ("Believer", "yt/believer", "3:44")
       else if String.eqb query "Lose Yourself"
       then Some ("Lose Yourself", "yt/lose", "5:20")
       else if String.eqb query "Thunder"
       then Some ("Thunder", "yt/thunder", "3:07")
       else None;
     download_audio := fun u _ =>
       if String.eqb u "yt/gone" then None else Some ("temp/" +:+ u);
     join_group_call := fun _ _ => true;
     change_stream := fun _ _ => true;
     pause_stream := fun _ => true;
     resume_stream := fun _ => true;
     leave_group_call := fun _ => true |}.

(** The same world with a transport that refuses to leave the call. *)
Definition stuck_world : World :=
  {| search_youtube := search_youtube world;
     download_audio := download_audio world;
     join_group_call := join_group_call world;
     change_stream := change_stream world;
     pause_stream := pause_stream world;
     resume_stream := resume_stream world;
     leave_group_call := fun _ => false |}.

Definition chat : Z := 7.

Definition play_msg (words : list string) (who : string) : Message :=
  {| msg_chat := chat; msg_in_group := true; msg_joined := Some true;
     msg_command := "/play" :: words; msg_mention := who;
     msg_user := 1001 |}.

Definition track (t u d who : string) (at_time : Z) : QueueItem :=
  {| chat_id := chat; title := t; url := u; duration := d;
     requested_by := who; added_at := at_time |}.

Definition believer := track "Believer" "yt/believer" "3:44" "@a" 10.
Definition lose_yourself := track "Lose Yourself" "yt/lose" "5:20" "@b" 20.
Definition gone := track "Gone" "yt/gone" "2:00" "@c" 30.
Definition thunder := track "Thunder" "yt/thunder" "3:07" "@a" 40.

(** The session after [play Believer] on a fresh bot: streaming, the queue
    empty. *)
Definition streaming_believer : MusicBot :=
  (play_command world (play_msg ["Believer"] "@a") 10 new_bot).1.1.

(** A session streaming "Believer" with two requests waiting: they were
    made while the session was paused. *)
Definition backlog : MusicBot :=
  run world
    [EvPlay (play_msg ["Believer"] "@a") 10;
     EvPause chat;
     EvPlay (play_msg ["Lose"; "Yourself"] "@b") 20;
     EvPlay (play_msg ["Thunder"] "@a") 40;
     EvResume chat]
    new_bot.

(** A session streaming [believer] with [q] waiting behind it. *)
Definition streaming_with (q : list QueueItem) : MusicBot :=
  {| queues := {[ chat := q ]};
     now_playing := {[ chat := believer ]};
     is_playing := {[ chat := true ]};
     is_paused := {[ chat := false ]};
     songs_played := 1; commands_used := 1 |}.

End Sample.

(** * Further parts of the program *)

(** ** [format_time] *)

(** [f"{n:02d}"]: the decimal numeral, with a zero in front when it is a
    single digit. *)
Definition format_02d (n : Z) : string :=
  if (0 <=? n)%Z && (n <? 10)%Z then String "0" (Py.str n) else Py.str n.

(** [format_time]; [//] and [%] round towards minus infinity, as [/] and
    [mod] on [Z] do for a positive divisor. *)
Definition format_time (seconds : Z) : string :=
  let hours := (seconds / 3600)%Z in
  let minutes := ((seconds mod 3600) / 60)%Z in
  let secs := (seconds mod 60)%Z in
  if (0 <? hours)%Z
  then format_02d hours +:+ ":" +:+ format_02d minutes +:+ ":"
       +:+ format_02d secs
  else format_02d minutes +:+ ":" +:+ format_02d secs.

(** ** Owner and moderation commands *)

(** [is_owner]; [owner_id] is [Config.OWNER_ID], read from the environment
    when the program starts. *)
Definition is_owner (owner_id user_id : Z) : bool := Z.eqb user_id owner_id.

(** [l.remove(x)] on a list that holds [x]: the first occurrence goes. *)
Fixpoint remove_first (x : Z) (l : list Z) : list Z :=
  match l with
  | [] => []
  | y :: l' => if Z.eqb y x then l' else y :: remove_first x l'
  end.

Inductive moderation_reply :=
  | NeedAdmin
  | NeedReplyTo
  | UserBanned
  | BanFailed
  | UserUnbanned
  | UnbanFailed.

(** [ban_command] on the bot and its [banned_users] table.  [target] is the
    sender of the message replied to: [None] without a reply, [Some None]
    when that message has no sender, in which case reading its identifier
    raises inside the [try].  [client_ok] tells whether [ban_chat_member]
    returned. *)
Definition ban_command (client_ok : bool) (m : Message)
  (target : option (option Z)) (st : MusicBot) (banned : gmap Z (list Z))
  : MusicBot * gmap Z (list Z) * moderation_reply :=
  let st := count_command st in
  if negb (is_admin (msg_chat m) (msg_user m)) then (st, banned, NeedAdmin)
  else match target with
       | None => (st, banned, NeedReplyTo)
       | Some None => (st, banned, BanFailed)
       | Some (Some user) =>
           if client_ok then
             let l := default [] (banned !! msg_chat m) in
             (st, <[msg_chat m := (l ++ [user])%list]> banned, UserBanned)
           else (st, banned, BanFailed)
       end.

(** [unban_command]; [client_ok] tells whether [unban_chat_member]
    returned. *)
Definition unban_command (client_ok : bool) (m : Message)
  (target : option (option Z)) (st : MusicBot) (banned : gmap Z (list Z))
  : MusicBot * gmap Z (list Z) * moderation_reply :=
  let st := count_command st in
  if negb (is_admin (msg_chat m) (msg_user m)) then (st, banned, NeedAdmin)
  else match target with
       | None => (st, banned, NeedReplyTo)
       | Some None => (st, banned, UnbanFailed)
       | Some (Some user) =>
           if client_ok then
             match banned !! msg_chat m with
             | Some l =>
                 if bool_decide (user ∈ l)
                 then (st, <[msg_chat m := remove_first user l]> banned,
                       UserUnbanned)
                 else (st, banned, UserUnbanned)
             | None => (st, banned, UserUnbanned)
             end
           else (st, banned, UnbanFailed)
       end.

Inductive broadcast_reply :=
  | OwnerOnly
  | NoBroadcastText
  | BroadcastDone (success failed : nat).

(** The loop of [broadcast_command] over the dialogs: each is a pair of
    whether the chat is a group or supergroup and whether [send_message]
    returned. *)
Fixpoint send_all (dialogs : list (bool * bool)) (success failed : nat)
  : nat * nat :=
  match dialogs with
  | [] => (success, failed)
  | (is_group, sent) :: dialogs' =>
      if is_group then
        if sent then send_all dialogs' (S success) failed
        else send_all dialogs' success (S failed)
      else send_all dialogs' success failed
  end.

(** [broadcast_command] *)
Definition broadcast_command (owner_id user_id : Z) (command : list string)
  (dialogs : list (bool * bool)) (st : MusicBot)
  : MusicBot * broadcast_reply :=
  if negb (is_owner owner_id user_id) then (st, OwnerOnly)
  else if Nat.ltb (length command) 2 then (st, NoBroadcastText)
  else
    let st := count_command st in
    let counts := send_all dialogs 0 0 in
    (st, BroadcastDone counts.1 counts.2).

(** ** Vocabulary of the further statements *)

Definition no_colon (s : string) : Prop :=
  Forall (fun c => Ascii.eqb c ":"%char = false)
    (String.list_ascii_of_string s).

(** The chat an event is addressed to. *)
Definition event_chat (ev : event) : Z :=
  match ev with
  | EvPlay m _ | EvSkip m => msg_chat m
  | EvPause cid | EvResume cid | EvStop cid | EvEnd cid | EvClear cid
  | EvSignal _ cid => cid
  end.

Definition is_signal (ev : event) : bool :=
  match ev with
  | EvSignal _ _ => true
  | _ => false
  end.

(** The queue, the slot and the two flags of chat [c] are the same in both
    states. *)
Definition same_session_at (c : Z) (st st' : MusicBot) : Prop :=
  queues st' !! c = queues st !! c /\
  now_playing st' !! c = now_playing st !! c /\
  is_playing st' !! c = is_playing st !! c /\
  is_paused st' !! c = is_paused st !! c.

Definition within_capacity (st : MusicBot) : Prop :=
  forall cid, length (queue_of st cid) <= Config.MAX_QUEUE_SIZE.

(** The number of tracks a call of [play_next] left streaming. *)
Definition started (a : Advance) : nat :=
  match coroutine a with
  | Sleeping _ _ _ => 1
  | Returned => 0
  end.

(** The item [play_command] constructs for a resolved request. *)
Definition new_request (m : Message) (t u d : string) (now : Z) : QueueItem :=
  {| chat_id := msg_chat m; title := t; url := u; duration := d;
     requested_by := msg_mention m; added_at := now |}.

(** The test of [skip_command] on the sender: the requester of the
    now-playing item, somebody for whom [is_admin] answers true, or anybody
    when the slot is empty. *)
Definition may_skip (m : Message) (st : MusicBot) : bool :=
  match now_playing st !! msg_chat m with
  | Some current_song =>
      String.eqb (requested_by current_song) (msg_mention m)
      || is_admin (msg_chat m) (msg_user m)
  | None => true
  end.

(** The five keys [load_data] reads from an item. *)
Definition item_keys : list string :=
  ["chat_id"; "title"; "url"; "duration"; "requested_by"].

(** [item['chat_id']], ..., [item['requested_by']] raise on the value
    [item]: a [TypeError] when it is no object, a [KeyError] when the
    object lacks one of the keys.  The types of the members play no role:
    [QueueItem.__init__] stores what it is given. *)
Definition item_raises (item : Json) : Prop :=
  match item with
  | JObj members => Exists (fun key => dict_get key members = None) item_keys
  | _ => True
  end.

(** A member of the ["queues"] object on which the loop of [load_data]
    raises: [int] rejects the key, the value cannot be iterated, or one of
    the values it yields raises as an item. *)
Definition entry_raises (entry : string * Json) : Prop :=
  Py.int entry.1 = None \/
  match json_iter entry.2 with
  | Some items => Exists item_raises items
  | None => True
  end.

Definition is_int (j : Json) : bool :=
  match j with
  | JInt _ => true
  | _ => false
  end.

Definition is_str (j : Json) : bool :=
  match j with
  | JStr _ => true
  | _ => false
  end.

(** The member [key] of an object, if it is there, has the type that
    [save_data] writes. *)
Definition member_typed (is_type : Json -> bool) (key : string)
  (members : list (string * Json)) : bool :=
  match dict_get key members with
  | Some v => is_type v
  | None => true
  end.

(** An item whose members fit the typed fields of [QueueItem]; a value that
    is no object has no members. *)
Definition item_typed (item : Json) : bool :=
  match item with
  | JObj members =>
      member_typed is_int "chat_id" members
      && member_typed is_str "title" members
      && member_typed is_str "url" members
      && member_typed is_str "duration" members
      && member_typed is_str "requested_by" members
  | _ => true
  end.

(** A member of ["queues"] all of whose items are typed. *)
Definition entry_typed (entry : string * Json) : bool :=
  match json_iter entry.2 with
  | Some items => forallb item_typed items
  | None => true
  end.

(** A queue file with the given members of ["queues"]. *)
Definition queues_file (entries : list (string * Json)) : option Json :=
  Some (JObj [("queues", JObj entries)]).

(** A ban or an unban command with the answer of the chat client, the
    message and the sender of the message replied to. *)
Inductive moderation :=
  | Ban (client_ok : bool) (m : Message) (target : option (option Z))
  | Unban (client_ok : bool) (m : Message) (target : option (option Z)).

Definition moderate (ev : moderation) (st : MusicBot)
  (banned : gmap Z (list Z))
  : MusicBot * gmap Z (list Z) * moderation_reply :=
  match ev with
  | Ban client_ok m target => ban_command client_ok m target st banned
  | Unban client_ok m target => unban_command client_ok m target st banned
  end.

(** The commands handled one after the other, with their answers. *)
Fixpoint moderate_all (evs : list moderation) (st : MusicBot)
  (banned : gmap Z (list Z))
  : MusicBot * gmap Z (list Z) * list moderation_reply :=
  match evs with
  | [] => (st, banned, [])
  | ev :: evs' =>
      let r := moderate ev st banned in
      let rs := moderate_all evs' r.1.1 r.1.2 in
      (rs.1.1, rs.1.2, r.2 :: rs.2)
  end.

(** ** Further sample worlds and states *)

Module Sample2.

(** A transport that refuses to pause and to resume. *)
Definition refusing_world : World :=
  {| search_youtube := search_youtube Sample.world;
     download_audio := download_audio Sample.world;
     join_group_call := join_group_call Sample.world;
     change_stream := change_stream Sample.world;
     pause_stream := fun _ => false;
     resume_stream := fun _ => false;
     leave_group_call := leave_group_call Sample.world |}.

(** A resolver that also finds "Gone", whose download fails. *)
Definition gone_world : World :=
  {| search_youtube := fun query =>
       if String.eqb query "Gone" then Some ("Gone", "yt/gone", "2:00")
       else search_youtube Sample.world query;
     download_audio := download_audio Sample.world;
     join_group_call := join_group_call Sample.world;
     change_stream := change_stream Sample.world;
     pause_stream := pause_stream Sample.world;
     resume_stream := resume_stream Sample.world;
     leave_group_call := leave_group_call Sample.world |}.

(** A message of the sender [who] in the sample chat. *)
Definition msg_from (who : string) (user : Z) : Message :=
  {| msg_chat := Sample.chat; msg_in_group := true; msg_joined := Some true;
     msg_command := ["/skip"]; msg_mention := who; msg_user := user |}.

(** "Believer" paused, nothing queued. *)
Definition paused_believer : MusicBot :=
  run Sample.world
    [EvPlay (Sample.play_msg ["Believer"] "@a") 10; EvPause Sample.chat]
    new_bot.

(** The backlog session after an accepted stop: Idle, two requests
    queued. *)
Definition stopped_backlog : MusicBot :=
  run Sample.world [EvStop Sample.chat] Sample.backlog.

End Sample2.

(** * Properties *)

(** ** Runs *)

Lemma run_reachable w evs start st :
  reachable start st -> reachable start (run w evs st).
Proof.
  revert st. induction evs as [|ev evs IH]; intros st Hst; [done|].
  simpl. apply IH. by constructor.
Qed.

(** ** Flags and queues under the field updates *)

Section Updates.
Context (cid : Z).

Lemma queue_of_dequeue item rest st :
  queue_of (dequeue cid item rest st) cid = rest.
Proof. unfold queue_of; simpl. by rewrite lookup_insert_eq. Qed.

Lemma now_playing_dequeue item rest st :
  now_playing (dequeue cid item rest st) !! cid = Some item.
Proof. simpl. by rewrite lookup_insert_eq. Qed.

Lemma phase_dequeue item rest st :
  phase (dequeue cid item rest st) cid = Streaming.
Proof.
  unfold phase, playing, paused; simpl. by rewrite !lookup_insert_eq.
Qed.

Lemma phase_not_playing st :
  phase (set_is_playing cid false st) cid = Idle.
Proof. unfold phase, playing; simpl. by rewrite lookup_insert_eq. Qed.

Lemma phase_count_song st : phase (count_song st) cid = phase st cid.
Proof. reflexivity. Qed.

Lemma playing_false_idle st : playing st cid = false -> phase st cid = Idle.
Proof. unfold phase. by intros ->. Qed.

End Updates.

(** ** The advance routine *)

Section Advance.
Context (w : World) (cid : Z).

Lemma download_fails_fetch item :
  download_fails w cid item -> fetch_and_stream w cid item = None.
Proof.
  unfold download_fails, fetch_and_stream.
  destruct (download_audio w (url item) cid) as [p|]; [|done].
  by intros ->.
Qed.

(** The recursive equation of the source: an empty or missing queue ends
    the call; otherwise the head is dequeued and either streams or is
    reported and followed by a new call on the shortened queue. *)
Lemma play_next_unfold st :
  play_next w cid st =
  match queue_of st cid with
  | [] => {| bot := set_is_playing cid false st; failed := [];
             coroutine := Returned |}
  | queue_item :: rest =>
      let st1 := dequeue cid queue_item rest st in
      match fetch_and_stream w cid queue_item with
      | Some audio_path =>
          {| bot := count_song st1; failed := [];
             coroutine := Sleeping queue_item audio_path
                            (sleep_seconds (duration queue_item)) |}
      | None => report_failed queue_item (play_next w cid st1)
      end
  end.
Proof.
  unfold play_next at 1.
  destruct (queue_of st cid) as [|item rest]; [done|].
  simpl. unfold play_next. by rewrite queue_of_dequeue.
Qed.

(** The queue before a call is what the call reported as failed, in
    order, followed by what it kept. *)
Lemma play_next_partition st :
  queue_of st cid = failed (play_next w cid st) ++ kept cid (play_next w cid st).
Proof.
  remember (queue_of st cid) as q eqn:Hq.
  revert st Hq. induction q as [|item rest IH]; intros st Hq.
  - rewrite play_next_unfold, <- Hq. unfold kept, queue_of in *. simpl.
    by rewrite <- Hq.
  - rewrite play_next_unfold, <- Hq. simpl.
    destruct (fetch_and_stream w cid item) as [p|].
    + unfold kept; simpl. f_equal.
      change (queues (dequeue cid item rest st) !! cid) with
        (<[cid:=rest]> (queues st) !! cid).
      unfold queue_of. simpl. by rewrite lookup_insert_eq.
    + unfold kept; simpl. f_equal.
      apply (IH (dequeue cid item rest st)).
      by rewrite queue_of_dequeue.
Qed.

Lemma play_next_failed st :
  Forall (fun item => fetch_and_stream w cid item = None)
    (failed (play_next w cid st)).
Proof.
  remember (queue_of st cid) as q eqn:Hq.
  revert st Hq. induction q as [|item rest IH]; intros st Hq;
    rewrite play_next_unfold, <- Hq; simpl; [constructor|].
  destruct (fetch_and_stream w cid item) as [p|] eqn:Hf; simpl.
  - constructor.
  - constructor; [done|]. apply IH. by rewrite queue_of_dequeue.
Qed.

Lemma play_next_returned st :
  coroutine (play_next w cid st) = Returned ->
  phase (bot (play_next w cid st)) cid = Idle /\
  queue_of (bot (play_next w cid st)) cid = [].
Proof.
  remember (queue_of st cid) as q eqn:Hq.
  revert st Hq. induction q as [|item rest IH]; intros st Hq;
    rewrite play_next_unfold, <- Hq; simpl.
  - intros _. split; [apply phase_not_playing|].
    unfold queue_of in *; simpl. by rewrite <- Hq.
  - destruct (fetch_and_stream w cid item) as [p|]; simpl; [done|].
    apply IH. by rewrite queue_of_dequeue.
Qed.

Lemma play_next_sleeping st item p secs :
  coroutine (play_next w cid st) = Sleeping item p secs ->
  phase (bot (play_next w cid st)) cid = Streaming /\
  now_playing (bot (play_next w cid st)) !! cid = Some item /\
  fetch_and_stream w cid item = Some p /\
  secs = sleep_seconds (duration item).
Proof.
  remember (queue_of st cid) as q eqn:Hq.
  revert st Hq. induction q as [|x rest IH]; intros st Hq;
    rewrite play_next_unfold, <- Hq; simpl; [done|].
  destruct (fetch_and_stream w cid x) as [p'|] eqn:Hf; simpl.
  - intros [= -> -> <-]. split; [|split; [|done]].
    + rewrite phase_count_song. apply phase_dequeue.
    + by rewrite lookup_insert_eq.
  - apply IH. by rewrite queue_of_dequeue.
Qed.

(** When every queued item fails, the call reports them all and returns. *)
Lemma play_next_all_fail st :
  Forall (fun item => fetch_and_stream w cid item = None) (queue_of st cid) ->
  coroutine (play_next w cid st) = Returned /\
  failed (play_next w cid st) = queue_of st cid.
Proof.
  remember (queue_of st cid) as q eqn:Hq.
  revert st Hq. induction q as [|x rest IH]; intros st Hq Hall;
    rewrite play_next_unfold, <- Hq; simpl; [done|].
  inversion Hall as [|? ? Hx Hrest]; subst. rewrite Hx. simpl.
  destruct (IH (dequeue cid x rest st)) as [-> ->];
    [by rewrite queue_of_dequeue | done | done].
Qed.

End Advance.

(** The queue after a call is an end piece of the queue before it. *)
Lemma play_next_suffix w cid st :
  exists gone,
    queue_of st cid = gone ++ queue_of (bot (play_next w cid st)) cid.
Proof.
  pose proof (play_next_partition w cid st) as H. unfold kept in H.
  destruct (coroutine (play_next w cid st)) as [|item p n].
  - by exists (failed (play_next w cid st)).
  - exists (failed (play_next w cid st) ++ [item]).
    by rewrite <- app_assoc.
Qed.

(** A call that finds an item at the head of the queue takes it out,
    whether the item then streams or fails. *)
Lemma play_next_dequeues_head w cid st x rest :
  queue_of st cid = x :: rest ->
  exists gone, rest = gone ++ queue_of (bot (play_next w cid st)) cid.
Proof.
  intros Hq. rewrite play_next_unfold, Hq. simpl.
  destruct (fetch_and_stream w cid x) as [p|]; simpl.
  - exists []. simpl. symmetry.
    apply (queue_of_dequeue cid x rest st).
  - destruct (play_next_suffix w cid (dequeue cid x rest st)) as [gone Hg].
    rewrite queue_of_dequeue in Hg. by exists gone.
Qed.

(** ** Fetch failures *)

(** C7. A call of [play_next] is total and consumes the queue in order: the
    queue it found is the list of items it reported as failed followed by
    what it kept, so each failure costs exactly one queued item, no item is
    tried twice and there are at most as many failures as queued items.
    When every queued item fails to download, the call returns with the
    queue empty and the session Idle.  With three items queued, the first
    failing to download and the second fetched and accepted by the
    transport, the session streams the second, the first is the only one
    discarded and the third stays queued. *)
Theorem fetch_failures_consume_the_queue (w : World) (cid : Z) (st : MusicBot) :
  let a := play_next w cid st in
  queue_of st cid = failed a ++ kept cid a /\
  length (failed a) <= length (queue_of st cid) /\
  (Forall (download_fails w cid) (queue_of st cid) ->
   coroutine a = Returned /\ failed a = queue_of st cid /\
   phase (bot a) cid = Idle /\ queue_of (bot a) cid = []) /\
  (forall i1 i2 i3 p,
     queue_of st cid = [i1; i2; i3] ->
     download_fails w cid i1 ->
     fetch_and_stream w cid i2 = Some p ->
     failed a = [i1] /\
     coroutine a = Sleeping i2 p (sleep_seconds (duration i2)) /\
     phase (bot a) cid = Streaming /\
     now_playing (bot a) !! cid = Some i2 /\
     queue_of (bot a) cid = [i3]).
Proof.
  intros a. subst a. split; [apply play_next_partition|].
  split.
  { pose proof (f_equal length (play_next_partition w cid st)) as Hlen.
    rewrite length_app in Hlen. lia. }
  split.
  - intros Hall.
    assert (Forall (fun item => fetch_and_stream w cid item = None)
              (queue_of st cid)) as Hnone
      by (eapply Forall_impl; [exact Hall | apply download_fails_fetch]).
    destruct (play_next_all_fail w cid st Hnone) as [Hret Hfailed].
    destruct (play_next_returned w cid st Hret) as [Hidle Hempty].
    done.
  - intros i1 i2 i3 p Hq H1 H2.
    apply download_fails_fetch in H1.
    rewrite play_next_unfold, Hq. simpl. rewrite H1.
    rewrite play_next_unfold, queue_of_dequeue. simpl. rewrite H2. simpl.
    repeat split.
    + unfold phase, playing, paused; simpl. by rewrite !lookup_insert_eq.
    + by rewrite lookup_insert_eq.
    + unfold queue_of; simpl. by rewrite lookup_insert_eq.
Qed.

Lemma fetch_failures_consume_the_queue_witness :
  let st := Sample.streaming_with [Sample.gone; Sample.lose_yourself; Sample.thunder] in
  let a := play_next Sample.world Sample.chat st in
  download_fails Sample.world Sample.chat Sample.gone /\
  failed a = [Sample.gone] /\
  now_playing (bot a) !! Sample.chat = Some Sample.lose_yourself /\
  queue_of (bot a) Sample.chat = [Sample.thunder].
Proof.
  intros st a.
  destruct (fetch_failures_consume_the_queue Sample.world Sample.chat st)
    as (_ & _ & _ & H).
  destruct (H Sample.gone Sample.lose_yourself Sample.thunder "temp/yt/lose")
    as (Hf & _ & _ & Hn & Hq); [reflexivity | exact I | reflexivity |].
  split; [exact I|]. split; [exact Hf|]. split; [exact Hn | exact Hq].
Defined.

(** ** Completion signals *)

(** C2, as the code has it.  Every stream-finished signal, from the
    transport or from the timer and in either order, enters [play_next]
    without looking at the item it was raised for.  Two signals therefore
    run two advances: when the next two queued tracks are fetched and
    accepted, the first signal starts the first of them and the second
    signal replaces it by the second, both having left the queue and the
    play counter raised twice.  The second signal dequeues nothing only when
    the first left the queue empty, and it then marks the session as not
    playing: whenever the first left an item queued, the second takes the
    head out of the queue, whether that item then streams or fails, and the
    queue after it is an end piece of what was behind the head. *)
Theorem two_signals_two_advances (w : World) (cid : Z) (st : MusicBot)
  (sg1 sg2 : signal) :
  let st1 := bot (deliver w sg1 cid st) in
  let st2 := bot (deliver w sg2 cid st1) in
  (forall b d rest pb pd,
     queue_of st cid = b :: d :: rest ->
     fetch_and_stream w cid b = Some pb ->
     fetch_and_stream w cid d = Some pd ->
     now_playing st1 !! cid = Some b /\
     now_playing st2 !! cid = Some d /\
     queue_of st2 cid = rest /\
     phase st2 cid = Streaming /\
     songs_played st2 = 2 + songs_played st) /\
  (queue_of st1 cid = [] -> st2 = set_is_playing cid false st1) /\
  (forall x rest,
     queue_of st1 cid = x :: rest ->
     exists gone, rest = gone ++ queue_of st2 cid) /\
  (queue_of st2 cid = queue_of st1 cid <-> queue_of st1 cid = []).
Proof.
  intros st1 st2. subst st1 st2.
  assert (forall sg s, deliver w sg cid s = play_next w cid s) as Hd
    by (by intros []).
  rewrite !Hd.
  assert (forall x rest,
            queue_of (bot (play_next w cid st)) cid = x :: rest ->
            exists gone,
              rest = gone
                     ++ queue_of (bot (play_next w cid
                                         (bot (play_next w cid st)))) cid)
    as Hhead by (intros x rest; apply play_next_dequeues_head).
  split; [|split; [|split; [exact Hhead|]]].
  - intros b d rest pb pd Hq Hb Hdl.
    rewrite (play_next_unfold w cid st), Hq. simpl. rewrite Hb. simpl.
    rewrite play_next_unfold.
    replace (queue_of (count_song (dequeue cid b (d :: rest) st)) cid)
      with (d :: rest) by (symmetry; apply queue_of_dequeue).
    simpl. rewrite Hdl. simpl.
    repeat split.
    + by rewrite lookup_insert_eq.
    + by rewrite lookup_insert_eq.
    + unfold queue_of; simpl. by rewrite lookup_insert_eq.
    + unfold phase, playing, paused; simpl. by rewrite !lookup_insert_eq.
  - intros Hq. rewrite (play_next_unfold w cid (bot _)), Hq. done.
  - split.
    + intros Heq.
      destruct (queue_of (bot (play_next w cid st)) cid) as [|x rest] eqn:Hq1;
        [done|].
      destruct (Hhead x rest eq_refl) as [gone Hg].
      apply (f_equal length) in Heq. apply (f_equal length) in Hg.
      rewrite length_app in Hg. simpl in Heq. lia.
    + intros Hq1. rewrite (play_next_unfold w cid (bot _)), Hq1. simpl.
      exact Hq1.
Qed.

Lemma two_signals_two_advances_witness :
  let st := Sample.streaming_with [Sample.lose_yourself; Sample.thunder] in
  let st1 := bot (deliver Sample.world TransportEnded Sample.chat st) in
  let st2 := bot (deliver Sample.world TimerElapsed Sample.chat st1) in
  queue_of st Sample.chat = [Sample.lose_yourself; Sample.thunder] /\
  now_playing st1 !! Sample.chat = Some Sample.lose_yourself /\
  now_playing st2 !! Sample.chat = Some Sample.thunder /\
  queue_of st2 Sample.chat = [].
Proof.
  intros st st1 st2.
  destruct (two_signals_two_advances Sample.world Sample.chat st
              TransportEnded TimerElapsed) as [H _].
  destruct (H Sample.lose_yourself Sample.thunder [] "temp/yt/lose"
              "temp/yt/thunder") as (H1 & H2 & H3 & _);
    [reflexivity | reflexivity | reflexivity |].
  split; [reflexivity|]. split; [exact H1|]. split; [exact H2 | exact H3].
Defined.

(** C2, as the claim has it, fails: with two tracks queued behind the
    streaming one, the first signal starts "Lose Yourself" and the second
    signal, raised for the track that is no longer now-playing, is not a
    no-op: it drops "Lose Yourself" and starts "Thunder". *)
Lemma second_signal_skips_a_track :
  let st := Sample.backlog in
  let st1 := bot (deliver Sample.world TransportEnded Sample.chat st) in
  let st2 := bot (deliver Sample.world TimerElapsed Sample.chat st1) in
  reachable new_bot st /\
  phase st Sample.chat = Streaming /\
  now_playing st !! Sample.chat = Some Sample.believer /\
  queue_of st Sample.chat = [Sample.lose_yourself; Sample.thunder] /\
  now_playing st1 !! Sample.chat = Some Sample.lose_yourself /\
  queue_of st1 Sample.chat = [Sample.thunder] /\
  now_playing st2 !! Sample.chat = Some Sample.thunder /\
  queue_of st2 Sample.chat = [] /\
  st2 <> st1.
Proof.
  intros st st1 st2.
  split; [apply run_reachable; constructor|].
  repeat split; try reflexivity.
  intros Heq. apply (f_equal (fun s => now_playing s !! Sample.chat)) in Heq.
  vm_compute in Heq. discriminate Heq.
Qed.

(** ** The bounded append *)

Lemma enqueue_full cid item st :
  Config.MAX_QUEUE_SIZE <= length (queue_of st cid) ->
  enqueue cid item st = (st, CapacityError).
Proof.
  intros Hfull. unfold enqueue.
  destruct (queues st !! cid) as [q|] eqn:Hq.
  - destruct (Nat.leb_spec Config.MAX_QUEUE_SIZE (length (queue_of st cid)));
      [done | lia].
  - unfold queue_of in Hfull. rewrite Hq in Hfull.
    unfold Config.MAX_QUEUE_SIZE in Hfull. simpl in Hfull. lia.
Qed.

Lemma enqueue_below cid item st :
  length (queue_of st cid) < Config.MAX_QUEUE_SIZE ->
  (enqueue cid item st).2 = Appended /\
  queue_of (enqueue cid item st).1 cid = queue_of st cid ++ [item] /\
  now_playing (enqueue cid item st).1 = now_playing st /\
  is_playing (enqueue cid item st).1 = is_playing st /\
  is_paused (enqueue cid item st).1 = is_paused st.
Proof.
  intros Hlt. unfold enqueue.
  destruct (queues st !! cid) as [q|] eqn:Hq.
  - destruct (Nat.leb_spec Config.MAX_QUEUE_SIZE (length (queue_of st cid)));
      [lia|].
    repeat split. unfold queue_of; simpl. by rewrite lookup_insert_eq.
  - assert (queue_of (set_queues (insert cid []) st) cid = []) as ->
      by (unfold queue_of; simpl; by rewrite lookup_insert_eq).
    assert (queue_of st cid = []) as -> by (unfold queue_of; by rewrite Hq).
    repeat split. unfold queue_of; simpl. by rewrite lookup_insert_eq.
Qed.

(** C4. The configured maximum is 100.  An append to a queue that already
    holds that many items is refused with [CapacityError] and returns the
    very same bot, so the queue has the same items in the same order; below
    the maximum the append succeeds and the new request is the last item of
    the queue, behind the ones that were there. *)
Theorem enqueue_respects_capacity (cid : Z) (item : QueueItem) (st : MusicBot) :
  Config.MAX_QUEUE_SIZE = 100 /\
  (Config.MAX_QUEUE_SIZE <= length (queue_of st cid) ->
   enqueue cid item st = (st, CapacityError)) /\
  (length (queue_of st cid) < Config.MAX_QUEUE_SIZE ->
   (enqueue cid item st).2 = Appended /\
   queue_of (enqueue cid item st).1 cid = queue_of st cid ++ [item]).
Proof.
  split; [reflexivity|]. split.
  - apply enqueue_full.
  - intros Hlt. destruct (enqueue_below cid item st Hlt) as (? & ? & _). done.
Qed.

Lemma enqueue_respects_capacity_witness :
  let full := Sample.streaming_with (replicate 100 Sample.thunder) in
  let one := Sample.streaming_with [Sample.thunder] in
  length (queue_of full Sample.chat) = 100 /\
  enqueue Sample.chat Sample.lose_yourself full = (full, CapacityError) /\
  queue_of (enqueue Sample.chat Sample.lose_yourself one).1 Sample.chat
  = [Sample.thunder; Sample.lose_yourself].
Proof.
  intros full one.
  destruct (enqueue_respects_capacity Sample.chat Sample.lose_yourself full)
    as (_ & Hfull & _).
  destruct (enqueue_respects_capacity Sample.chat Sample.lose_yourself one)
    as (_ & _ & Hone).
  split; [reflexivity|]. split.
  - apply Hfull. vm_compute. lia.
  - apply Hone. vm_compute. lia.
Defined.

(** The whole handler on a full queue: the answer is "queue is full" and
    only the command counter has moved. *)
Lemma play_command_queue_full w m now st t u d :
  well_formed m ->
  search_youtube w (Py.join_space (tail (msg_command m))) = Some (t, u, d) ->
  Py.truthy_str t = true ->
  Config.MAX_QUEUE_SIZE <= length (queue_of st (msg_chat m)) ->
  play_command w m now st = (count_command st, QueueFull, Returned).
Proof.
  intros (Hg & Hj & Hc) Hs Ht Hfull. unfold play_command.
  rewrite Hg. simpl. rewrite bool_decide_eq_false_2 by done.
  destruct (Nat.ltb_spec (length (msg_command m)) 2); [lia|].
  rewrite Hs, Ht. simpl. by rewrite enqueue_full.
Qed.

(** The handler on a queue below the maximum: the request is appended and
    [play_next] is entered unless the session is both playing and paused. *)
Lemma play_command_accepted w m now st t u d :
  well_formed m ->
  search_youtube w (Py.join_space (tail (msg_command m))) = Some (t, u, d) ->
  Py.truthy_str t = true ->
  length (queue_of st (msg_chat m)) < Config.MAX_QUEUE_SIZE ->
  let cid := msg_chat m in
  let item := {| chat_id := cid; title := t; url := u; duration := d;
                 requested_by := msg_mention m; added_at := now |} in
  let st1 := (enqueue cid item (count_command st)).1 in
  queue_of st1 cid = queue_of st cid ++ [item] /\
  play_command w m now st =
  if negb (playing st cid) || negb (paused st cid)
  then (bot (play_next w cid st1), NowPlaying t, coroutine (play_next w cid st1))
  else (st1, AddedToQueue (S (length (queue_of st cid))) t, Returned).
Proof.
  intros (Hg & Hj & Hc) Hs Ht Hlt cid item st1.
  destruct (enqueue_below cid item (count_command st) Hlt)
    as (Happ & Hq & _ & Hpl & Hpa).
  split; [exact Hq|].
  unfold play_command.
  rewrite Hg. simpl. rewrite bool_decide_eq_false_2 by done.
  destruct (Nat.ltb_spec (length (msg_command m)) 2); [lia|].
  rewrite Hs, Ht. simpl. fold cid. fold item.
  destruct (enqueue cid item (count_command st)) as [st1' e] eqn:He.
  simpl in *. subst e. subst st1.
  unfold playing, paused. rewrite Hpl, Hpa. simpl.
  destruct (negb (Py.truthy (is_playing st !! cid))
            || negb (Py.truthy (is_paused st !! cid))); [done|].
  rewrite Hq, length_app. simpl.
  change (queue_of (count_command st) cid) with (queue_of st cid).
  by rewrite Nat.add_1_r.
Qed.

(** C1 on the code: a play command in the Streaming phase.  The session
    streams "Believer" with an empty queue; the request for "Lose Yourself"
    is resolved, appended and fetched.  Since the session is not paused the
    handler enters [play_next], which takes the new request out of the queue
    again and puts it in the now-playing slot: the queue has length 0, not
    1, and the now-playing item has changed. *)
Lemma play_while_streaming_replaces_track :
  let st := Sample.streaming_believer in
  let r := play_command Sample.world
             (Sample.play_msg ["Lose"; "Yourself"] "@b") 20 st in
  phase st Sample.chat = Streaming /\
  now_playing st !! Sample.chat = Some Sample.believer /\
  queue_of st Sample.chat = [] /\
  r.1.2 = NowPlaying "Lose Yourself" /\
  length (queue_of r.1.1 Sample.chat) = 0 /\
  now_playing r.1.1 !! Sample.chat = Some Sample.lose_yourself /\
  phase r.1.1 Sample.chat = Streaming.
Proof. repeat split; reflexivity. Qed.

(** ** Control commands *)

Lemma same_sessions_count st : same_sessions st (count_command st).
Proof. done. Qed.

(** C9. A control command whose precondition fails answers with its
    "nothing is playing" message and changes no queue, no now-playing slot
    and no flag of any session: pause when the session is not playing or is
    already paused, resume when it is not paused, skip and stop when it is
    not playing.  (Only the counter of used commands moves.) *)
Theorem failed_precondition_changes_nothing (w : World) (st : MusicBot) :
  (forall cid, playing st cid = false \/ paused st cid = true ->
     (pause_command w cid st).2 = NotPlayingOrAlreadyPaused /\
     same_sessions st (pause_command w cid st).1) /\
  (forall cid, paused st cid = false ->
     (resume_command w cid st).2 = NotPaused /\
     same_sessions st (resume_command w cid st).1) /\
  (forall m, playing st (msg_chat m) = false ->
     (skip_command w m st).1.2 = NoMusicPlaying /\
     same_sessions st (skip_command w m st).1.1) /\
  (forall cid, playing st cid = false ->
     (stop_command w cid st).2 = NoMusicPlaying /\
     same_sessions st (stop_command w cid st).1).
Proof.
  split; [|split; [|split]].
  - intros cid H. unfold pause_command.
    change (playing (count_command st) cid) with (playing st cid).
    change (paused (count_command st) cid) with (paused st cid).
    destruct H as [-> | ->]; simpl; rewrite ?orb_true_r; done.
  - intros cid H. unfold resume_command.
    change (paused (count_command st) cid) with (paused st cid).
    rewrite H. done.
  - intros m H. unfold skip_command.
    change (playing (count_command st) (msg_chat m))
      with (playing st (msg_chat m)).
    rewrite H. done.
  - intros cid H. unfold stop_command.
    change (playing (count_command st) cid) with (playing st cid).
    rewrite H. done.
Qed.

Lemma failed_precondition_changes_nothing_witness :
  let st := Sample.streaming_with [Sample.thunder] in
  paused st Sample.chat = false /\
  playing new_bot Sample.chat = false /\
  (resume_command Sample.world Sample.chat st).2 = NotPaused /\
  same_sessions st (resume_command Sample.world Sample.chat st).1 /\
  (stop_command Sample.world Sample.chat new_bot).2 = NoMusicPlaying /\
  same_sessions new_bot (pause_command Sample.world Sample.chat new_bot).1.
Proof.
  intros st.
  destruct (failed_precondition_changes_nothing Sample.world st)
    as (_ & Hresume & _ & _).
  destruct (failed_precondition_changes_nothing Sample.world new_bot)
    as (Hpause & _ & _ & Hstop).
  destruct (Hresume Sample.chat) as [Hr1 Hr2]; [reflexivity|].
  destruct (Hstop Sample.chat) as [Hs1 _]; [reflexivity|].
  destruct (Hpause Sample.chat) as [_ Hp2]; [left; reflexivity|].
  split; [reflexivity|]. split; [reflexivity|].
  split; [exact Hr1|]. split; [exact Hr2|]. split; [exact Hs1 | exact Hp2].
Defined.

(** C6. Whatever the session was doing and however many items were queued,
    after the end command the session is Idle, its now-playing slot is
    empty and its queue has length 0; the answer of the transport to the
    leave request plays no role. *)
Theorem end_command_clears_everything (w : World) (cid : Z) (st : MusicBot) :
  let r := end_command w cid st in
  r.2 = PlaybackEnded /\
  phase r.1 cid = Idle /\
  now_playing r.1 !! cid = None /\
  queue_of r.1 cid = [] /\
  length (queue_of r.1 cid) = 0.
Proof.
  simpl.
  assert (queue_of
            (set_is_paused cid false
               (set_is_playing cid false
                  (set_now_playing (delete cid)
                     (set_queues (alter (fun _ => []) cid)
                        (count_command st))))) cid = []) as Hq.
  { unfold queue_of; simpl. rewrite lookup_alter_eq.
    by destruct (queues st !! cid). }
  repeat split.
  - unfold phase, playing; simpl. by rewrite lookup_insert_eq.
  - by rewrite lookup_delete_eq.
  - exact Hq.
  - by rewrite Hq.
Qed.

(** C5, as the code has it.  For a session that is playing (streaming or
    paused; a fetch in progress has the same flags), the stop command never
    touches a queue.  When the transport accepts the leave request the
    session becomes Idle: its playing flag and its paused flag are both set
    to false, and no flag of another chat changes.  When the transport
    raises, the command answers with a failure and no queue, slot or flag
    has changed.  Nothing is said here about the now-playing slot after an
    accepted stop. *)
Theorem stop_command_keeps_the_queue (w : World) (cid : Z) (st : MusicBot) :
  playing st cid = true ->
  let r := stop_command w cid st in
  queues r.1 = queues st /\
  (leave_group_call w cid = true ->
   r.2 = MusicStopped /\ phase r.1 cid = Idle /\
   is_playing r.1 = <[cid := false]> (is_playing st) /\
   is_paused r.1 = <[cid := false]> (is_paused st) /\
   playing r.1 cid = false /\ paused r.1 cid = false) /\
  (leave_group_call w cid = false ->
   r.2 = StopFailed /\ same_sessions st r.1).
Proof.
  intros Hp. unfold stop_command.
  change (playing (count_command st) cid) with (playing st cid).
  rewrite Hp. simpl.
  destruct (leave_group_call w cid); simpl.
  - split; [done|]. split; [|done]. intros _. split; [done|].
    unfold phase, playing, paused; simpl. by rewrite !lookup_insert_eq.
  - done.
Qed.

Lemma stop_command_keeps_the_queue_witness :
  let st := Sample.streaming_with [Sample.thunder] in
  let r := stop_command Sample.world Sample.chat st in
  playing st Sample.chat = true /\
  queues r.1 = queues st /\
  queue_of r.1 Sample.chat = [Sample.thunder] /\
  phase r.1 Sample.chat = Idle.
Proof.
  intros st r.
  destruct (stop_command_keeps_the_queue Sample.world Sample.chat st)
    as (Hq & Hok & _); [reflexivity|].
  destruct Hok as (_ & Hidle & _); [reflexivity|].
  split; [reflexivity|]. split; [exact Hq|].
  split; [reflexivity | exact Hidle].
Defined.

(** C5, as the claim has it, fails: when the transport refuses the leave
    request the stop command changes nothing and a streaming session is
    still streaming. *)
Lemma refused_stop_keeps_streaming :
  let st := Sample.backlog in
  let r := stop_command Sample.stuck_world Sample.chat st in
  reachable new_bot st /\
  phase st Sample.chat = Streaming /\
  r.2 = StopFailed /\
  phase r.1 Sample.chat = Streaming /\
  phase r.1 Sample.chat <> Idle /\
  now_playing r.1 !! Sample.chat = Some Sample.believer.
Proof.
  split; [apply run_reachable; constructor|].
  repeat split; try reflexivity. discriminate.
Qed.

(** ** The now-playing slot *)

Lemma slot_filled_ext st st' :
  is_playing st' = is_playing st -> now_playing st' = now_playing st ->
  slot_filled_when_playing st -> slot_filled_when_playing st'.
Proof.
  intros Hp Hn H cid. unfold playing. rewrite Hp, Hn. apply H.
Qed.

Lemma slot_filled_not_playing cid st :
  slot_filled_when_playing st ->
  slot_filled_when_playing (set_is_playing cid false st).
Proof.
  intros H c. unfold playing; simpl.
  destruct (decide (cid = c)) as [->|Hne].
  - by rewrite lookup_insert_eq.
  - rewrite lookup_insert_ne by done. apply H.
Qed.

Lemma slot_filled_dequeue cid item rest st :
  slot_filled_when_playing st ->
  slot_filled_when_playing (dequeue cid item rest st).
Proof.
  intros H c. unfold playing; simpl.
  destruct (decide (cid = c)) as [->|Hne].
  - by rewrite !lookup_insert_eq.
  - rewrite !lookup_insert_ne by done. apply H.
Qed.

Lemma slot_filled_play_next w cid st :
  slot_filled_when_playing st ->
  slot_filled_when_playing (bot (play_next w cid st)).
Proof.
  remember (queue_of st cid) as q eqn:Hq.
  revert st Hq. induction q as [|item rest IH]; intros st Hq Hinv;
    rewrite play_next_unfold, <- Hq; simpl.
  - by apply slot_filled_not_playing.
  - destruct (fetch_and_stream w cid item); simpl.
    + apply (slot_filled_dequeue cid item rest st Hinv).
    + apply IH; [by rewrite queue_of_dequeue|].
      by apply slot_filled_dequeue.
Qed.

Lemma slot_filled_enqueue cid item st :
  slot_filled_when_playing st ->
  slot_filled_when_playing (enqueue cid item st).1.
Proof.
  apply slot_filled_ext; unfold enqueue;
    destruct (queues st !! cid);
    destruct (Nat.leb Config.MAX_QUEUE_SIZE _); done.
Qed.

Lemma slot_filled_handle w ev st :
  slot_filled_when_playing st -> slot_filled_when_playing (handle w ev st).
Proof.
  intros Hinv.
  assert (slot_filled_when_playing (count_command st)) as Hc by done.
  destruct ev as [m now|cid|cid|m|cid|cid|cid|sg cid]; simpl.
  - unfold play_command.
    repeat (case_match; simpl; try done).
    all: match goal with
         | H : enqueue ?c ?i ?s = (?s1, _) |- _ =>
             pose proof (slot_filled_enqueue c i s Hc) as He;
             rewrite H in He; simpl in He
         end; try done.
    by apply slot_filled_play_next.
  - unfold pause_command. repeat (case_match; simpl; try done).
  - unfold resume_command. repeat (case_match; simpl; try done).
  - unfold skip_command. repeat (case_match; simpl; try done).
    all: by apply slot_filled_play_next.
  - unfold stop_command. repeat (case_match; simpl; try done).
    by apply (slot_filled_not_playing cid (count_command st)).
  - intros c. unfold playing; simpl.
    destruct (decide (cid = c)) as [->|Hne].
    + by rewrite lookup_insert_eq.
    + rewrite lookup_insert_ne, lookup_delete_ne by done. apply Hinv.
  - unfold clear_command. repeat (case_match; simpl; try done).
  - destruct sg; by apply slot_filled_play_next.
Qed.

(** The half of the slot invariant that the code keeps: in every state the
    handlers can reach from a fresh bot, a playing session has a now-playing
    item. *)
Lemma playing_session_has_now_playing st :
  reachable new_bot st -> slot_filled_when_playing st.
Proof.
  induction 1 as [|st w ev _ IH].
  - intros cid. unfold playing; simpl. by rewrite lookup_empty.
  - by apply slot_filled_handle.
Qed.

(** C3 on the code: the slot is not empty in every Idle session.  From a
    fresh bot, "play Believer" starts streaming; an accepted stop makes the
    session Idle and leaves "Believer" in the now-playing slot, and so does
    the end of the stream with nothing queued.  Only the end command, which
    deletes the slot, reaches Idle with the slot empty. *)
Lemma idle_session_keeps_now_playing :
  let play := EvPlay (Sample.play_msg ["Believer"] "@a") 10 in
  let stopped := run Sample.world [play; EvStop Sample.chat] new_bot in
  let finished :=
    run Sample.world [play; EvSignal TimerElapsed Sample.chat] new_bot in
  let ended := run Sample.world [play; EvEnd Sample.chat] new_bot in
  reachable new_bot stopped /\
  phase stopped Sample.chat = Idle /\
  now_playing stopped !! Sample.chat = Some Sample.believer /\
  reachable new_bot finished /\
  phase finished Sample.chat = Idle /\
  now_playing finished !! Sample.chat = Some Sample.believer /\
  phase ended Sample.chat = Idle /\
  now_playing ended !! Sample.chat = None.
Proof.
  intros play stopped finished ended.
  repeat split; try reflexivity.
  - apply run_reachable. constructor.
  - apply run_reachable. constructor.
Qed.

(** ** The estimated end of a stream *)

Example sleep_believer : sleep_seconds "3:44" = 226%Z.
Proof. reflexivity. Qed.

Example sleep_hours : sleep_seconds "1:02:03" = 3725%Z.
Proof. reflexivity. Qed.

Example int_examples :
  Py.int " 5 " = Some 5%Z /\ Py.int "-5" = Some (-5)%Z /\
  Py.int "1_0" = Some 10%Z /\ Py.int "1__0" = None /\ Py.int "_1" = None /\
  Py.int "1_" = None /\ Py.int "+ 5" = None /\ Py.int "007" = Some 7%Z /\
  Py.int "" = None /\ Py.str (-100123) = "-100123" /\ Py.str 0 = "0".
Proof. repeat split; reflexivity. Qed.

(** C8, as the code has it.  A duration [mm:ss] whose two parts are
    integers for [int] waits [minutes*60+seconds] and the 2-second buffer;
    [hh:mm:ss] waits [hours*3600+minutes*60+seconds] and the same buffer.  A
    duration with another number of parts than two or three takes the
    180-second window and the buffer (182 seconds).  A duration with two or
    three parts of which one is not an integer waits exactly 180 seconds,
    without the buffer. *)
Theorem sleep_seconds_by_cases (d : string) :
  (forall m s minutes seconds,
     Py.split_colon d = [m; s] ->
     Py.int m = Some minutes -> Py.int s = Some seconds ->
     sleep_seconds d = (minutes * 60 + seconds + 2)%Z) /\
  (forall h m s hours minutes seconds,
     Py.split_colon d = [h; m; s] ->
     Py.int h = Some hours -> Py.int m = Some minutes ->
     Py.int s = Some seconds ->
     sleep_seconds d = (hours * 3600 + minutes * 60 + seconds + 2)%Z) /\
  (length (Py.split_colon d) <> 2 -> length (Py.split_colon d) <> 3 ->
   sleep_seconds d = (180 + 2)%Z) /\
  (length (Py.split_colon d) = 2 \/ length (Py.split_colon d) = 3 ->
   Exists (fun part => Py.int part = None) (Py.split_colon d) ->
   sleep_seconds d = 180%Z).
Proof.
  unfold sleep_seconds, parse_duration.
  split; [|split; [|split]].
  - intros m s minutes seconds -> -> ->. done.
  - intros h m s hours minutes seconds -> -> -> ->. done.
  - intros H2 H3.
    destruct (Py.split_colon d) as [|a [|b [|c [|e l]]]]; simpl in *; done.
  - intros Hlen Hex.
    destruct (Py.split_colon d) as [|a [|b [|c [|e l]]]]; simpl in *;
      try (destruct Hlen; discriminate).
    + apply Exists_cons in Hex as [Ha|Hex]; [by rewrite Ha|].
      apply Exists_cons in Hex as [Hb|Hex]; [|by apply Exists_nil in Hex].
      rewrite Hb. by destruct (Py.int a).
    + apply Exists_cons in Hex as [Ha|Hex]; [by rewrite Ha|].
      apply Exists_cons in Hex as [Hb|Hex];
        [rewrite Hb; by destruct (Py.int a)|].
      apply Exists_cons in Hex as [Hc|Hex]; [|by apply Exists_nil in Hex].
      rewrite Hc. by destruct (Py.int a), (Py.int b).
Qed.

Lemma sleep_seconds_by_cases_witness :
  Py.split_colon "3:44" = ["3"; "44"] /\
  sleep_seconds "3:44" = (3 * 60 + 44 + 2)%Z /\
  sleep_seconds "1:02:03" = (1 * 3600 + 2 * 60 + 3 + 2)%Z /\
  sleep_seconds "live" = (180 + 2)%Z /\
  sleep_seconds "3:xx" = 180%Z.
Proof.
  split; [reflexivity|]. split; [|split; [|split]].
  - destruct (sleep_seconds_by_cases "3:44") as (H & _).
    apply (H "3" "44"); reflexivity.
  - destruct (sleep_seconds_by_cases "1:02:03") as (_ & H & _).
    apply (H "1" "02" "03"); reflexivity.
  - destruct (sleep_seconds_by_cases "live") as (_ & _ & H & _).
    apply H; discriminate.
  - destruct (sleep_seconds_by_cases "3:xx") as (_ & _ & _ & H).
    apply H; [left; reflexivity|].
    apply Exists_cons_tl, Exists_cons_hd. reflexivity.
Defined.

(** C8, as the claim has it, fails: the wait is not the declared length
    (180 seconds for what does not parse) plus one safety buffer.  "3:44"
    waits its 224 seconds and 2 more, "3:xx" waits 180 seconds and nothing
    more, and "live" waits 182 seconds, so the fallback is not one fixed
    wait either. *)
Lemma fallback_wait_has_no_buffer :
  sleep_seconds "3:44" = (declared_length "3:44" + 2)%Z /\
  declared_length "3:xx" = 180%Z /\
  sleep_seconds "3:xx" = 180%Z /\
  sleep_seconds "live" = 182%Z /\
  ~ (exists buffer : Z,
       forall d, sleep_seconds d = (declared_length d + buffer)%Z).
Proof.
  repeat split; try reflexivity.
  intros [buffer H].
  pose proof (H "3:44") as H1. pose proof (H "3:xx") as H2.
  change (226 = 224 + buffer)%Z in H1. change (180 = 180 + buffer)%Z in H2.
  lia.
Qed.

(** ** The queue snapshot *)

Lemma scan_acc u (acc : positive) :
  Py.scan_digits (digits u) (Z.pos acc) false = Some (Z.pos (Pos.of_uint_acc u acc)).
Proof.
  revert acc. unfold digits.
  induction u; intros acc; simpl; [done|..];
    rewrite <- IHu; f_equal; lia.
Qed.

Lemma scan_zero u :
  Py.scan_digits (digits u) 0 false = Some (Z.of_N (Pos.of_uint u)).
Proof.
  unfold digits. induction u; simpl; [done|exact IHu|..]; apply scan_acc.
Qed.

Lemma digits_not_space u : Forall (fun c => Py.is_space c = false) (digits u).
Proof. unfold digits. induction u; simpl; constructor; done. Qed.

Lemma lstrip_id l : Forall (fun c => Py.is_space c = false) l -> Py.lstrip l = l.
Proof. destruct 1 as [|c l Hc _]; simpl; [done|]. by rewrite Hc. Qed.

Lemma strip_id l : Forall (fun c => Py.is_space c = false) l -> Py.strip l = l.
Proof.
  intros H. unfold Py.strip. rewrite (lstrip_id l H).
  rewrite lstrip_id by (by apply Forall_rev). apply rev_involutive.
Qed.

Lemma unsigned_literal_digits u :
  u <> Decimal.Nil ->
  Py.unsigned_literal (digits u) = Some (Z.of_N (Pos.of_uint u)).
Proof.
  intros Hu. destruct u; [done|..]; unfold digits; simpl;
    first [apply scan_zero | apply scan_acc].
Qed.

Lemma to_uint_nonnil p : Pos.to_uint p <> Decimal.Nil.
Proof.
  intros H. pose proof (DecimalPos.Unsigned.of_to p) as Hp.
  rewrite H in Hp. discriminate Hp.
Qed.


Lemma int_of_digits u :
  u <> Decimal.Nil ->
  Py.int (NilEmpty.string_of_uint u) = Some (Z.of_N (Pos.of_uint u)).
Proof.
  intros Hu. unfold Py.int.
  change (String.list_ascii_of_string (NilEmpty.string_of_uint u))
    with (digits u).
  rewrite strip_id by apply digits_not_space.
  rewrite <- unsigned_literal_digits by done.
  destruct u; [done|..]; reflexivity.
Qed.

Lemma int_of_minus_digits u :
  u <> Decimal.Nil ->
  Py.int (String "-" (NilEmpty.string_of_uint u))
  = Some (- Z.of_N (Pos.of_uint u))%Z.
Proof.
  intros Hu. unfold Py.int.
  change (String.list_ascii_of_string (String "-" (NilEmpty.string_of_uint u)))
    with ("-"%char :: digits u).
  rewrite strip_id by (constructor; [done | apply digits_not_space]).
  simpl. by rewrite unsigned_literal_digits.
Qed.

Lemma nilzero_nonnil u :
  u <> Decimal.Nil -> NilZero.string_of_uint u = NilEmpty.string_of_uint u.
Proof. by destruct u. Qed.

Lemma int_str n : Py.int (Py.str n) = Some n.
Proof.
  destruct n as [|p|p]; [reflexivity|..]; unfold Py.str; simpl;
    rewrite nilzero_nonnil by apply to_uint_nonnil.
  - rewrite int_of_digits by apply to_uint_nonnil.
    by rewrite DecimalPos.Unsigned.of_to.
  - rewrite int_of_minus_digits by apply to_uint_nonnil.
    by rewrite DecimalPos.Unsigned.of_to.
Qed.

Lemma restamp_same_request now i q : Forall2 same_request q (restamp now i q).
Proof.
  revert i. induction q as [|x q IH]; intros i; simpl; constructor; [|done].
  by repeat split.
Qed.

Lemma items_of_json_saved now i q :
  items_of_json now i (map item_to_json q) = Some (restamp now i q).
Proof.
  revert i. induction q as [|x q IH]; intros i; [done|].
  simpl. by rewrite IH.
Qed.

Lemma load_entries_saved now (l : list (Z * list QueueItem)) qs cid :
  NoDup l.*1 ->
  load_entries now (map queue_to_json l) qs !! cid =
  match (list_to_map l : gmap Z (list QueueItem)) !! cid with
  | Some q => Some (restamp (now cid) 0 q)
  | None => qs !! cid
  end.
Proof.
  revert qs. induction l as [|[k q] l IH]; intros qs Hnd; [done|].
  apply NoDup_cons in Hnd as [Hk Hnd].
  simpl. rewrite int_str. simpl. rewrite items_of_json_saved.
  rewrite IH by done.
  destruct (decide (k = cid)) as [->|Hne].
  - rewrite lookup_insert_eq.
    rewrite (not_elem_of_list_to_map_1 _ _ Hk). by rewrite lookup_insert_eq.
  - rewrite !lookup_insert_ne by done. done.
Qed.

(** C10. Saving the queues of a bot and loading the snapshot into a fresh
    bot gives every chat identifier a queue again exactly when it had one;
    that queue has the same length and order, and each item agrees with the
    one it comes from on [chat_id], [title], [url], [duration] and
    [requested_by], its [added_at] being the clock at loading time.  The
    snapshot is a function of the queues alone, so no now-playing item is
    in it, and the loaded bot has no now-playing item and no flag set. *)
Theorem snapshot_round_trip (st : MusicBot) (now : Z -> nat -> Z) :
  let loaded := load_data (Some (save_data st)) now new_bot in
  (forall cid,
     queues loaded !! cid = restamp (now cid) 0 <$> queues st !! cid) /\
  (forall cid,
     option_Forall2 (Forall2 same_request)
       (queues st !! cid) (queues loaded !! cid)) /\
  (forall cid, length (queue_of loaded cid) = length (queue_of st cid)) /\
  (forall st', queues st' = queues st -> save_data st' = save_data st) /\
  now_playing loaded = ∅ /\ is_playing loaded = ∅.
Proof.
  intros loaded.
  assert (forall cid,
     queues loaded !! cid = restamp (now cid) 0 <$> queues st !! cid) as Hq.
  { intros cid. subst loaded. simpl.
    rewrite load_entries_saved by apply NoDup_fst_map_to_list.
    rewrite list_to_map_to_list.
    destruct (queues st !! cid); [done | apply lookup_empty]. }
  split; [exact Hq|]. split; [|split; [|split]].
  - intros cid. rewrite Hq. destruct (queues st !! cid) as [q|]; simpl.
    + constructor. apply restamp_same_request.
    + constructor.
  - intros cid. unfold queue_of. rewrite Hq.
    destruct (queues st !! cid) as [q|]; simpl; [|done].
    symmetry. eapply Forall2_length, restamp_same_request.
  - intros st' Heq. unfold save_data. by rewrite Heq.
  - done.
Qed.

Lemma snapshot_round_trip_witness :
  let st := Sample.streaming_with [Sample.lose_yourself; Sample.thunder] in
  let loaded := load_data (Some (save_data st)) (fun _ _ => 99%Z) new_bot in
  save_data st = save_data (set_now_playing (delete Sample.chat) st) /\
  length (queue_of loaded Sample.chat) = 2 /\
  title <$> queue_of loaded Sample.chat = ["Lose Yourself"; "Thunder"].
Proof.
  intros st loaded.
  destruct (snapshot_round_trip st (fun _ _ => 99%Z)) as (_ & _ & Hlen & Hsnap & _).
  split; [symmetry; apply Hsnap; reflexivity|].
  split; [|reflexivity].
  etrans; [apply (Hlen Sample.chat) | reflexivity].
Defined.


(** * Properties of the further parts *)

(** ** [format_time] and the duration parser *)

Lemma split_colon_no_colon a : no_colon a -> Py.split_colon a = [a].
Proof.
  unfold no_colon. induction a as [|c a IH]; simpl; [done|].
  intros H. apply Forall_cons in H as [Hc H]. by rewrite Hc, IH.
Qed.

Lemma split_colon_app a b :
  no_colon a -> Py.split_colon (a +:+ String ":" b) = a :: Py.split_colon b.
Proof.
  unfold no_colon. induction a as [|c a IH]; simpl; [done|].
  intros H. apply Forall_cons in H as [Hc H]. by rewrite Hc, IH.
Qed.

Lemma digits_no_colon u :
  Forall (fun c => Ascii.eqb c ":"%char = false) (digits u).
Proof. unfold digits. induction u; simpl; constructor; done. Qed.

Lemma str_no_colon n : (0 <= n)%Z -> no_colon (Py.str n).
Proof.
  intros Hn. unfold no_colon, Py.str.
  destruct n as [|p|p]; [by repeat constructor| |lia].
  simpl. rewrite nilzero_nonnil by apply to_uint_nonnil.
  apply digits_no_colon.
Qed.

Lemma format_02d_no_colon n : (0 <= n)%Z -> no_colon (format_02d n).
Proof.
  intros Hn. unfold format_02d.
  destruct ((0 <=? n)%Z && (n <? 10)%Z); [|by apply str_no_colon].
  constructor; [done|]. by apply str_no_colon.
Qed.

Lemma int_format_02d n : (0 <= n)%Z -> Py.int (format_02d n) = Some n.
Proof.
  intros Hn. unfold format_02d.
  destruct ((0 <=? n)%Z && (n <? 10)%Z) eqn:Hsmall; [|apply int_str].
  apply andb_true_iff in Hsmall as [_ H10]. apply Z.ltb_lt in H10.
  destruct n as [|p|p]; [reflexivity| |lia].
  do 4 (try (destruct p as [p|p|]; try lia)); reflexivity.
Qed.

(** What the parser reads back from a formatted time: the minutes and
    seconds always, the hours when they were printed. *)
Lemma parse_format_time seconds :
  parse_duration (format_time seconds)
  = Parsed (if (0 <? seconds / 3600)%Z then seconds
            else (seconds mod 3600)%Z).
Proof.
  unfold format_time, parse_duration.
  pose proof (Z.mod_pos_bound seconds 3600 ltac:(lia)) as Hm.
  pose proof (Z.div_pos (seconds mod 3600) 60 ltac:(lia) ltac:(lia)) as Hmin.
  pose proof (Z.mod_pos_bound seconds 60 ltac:(lia)) as Hsec.
  assert (seconds mod 60 = (seconds mod 3600) mod 60)%Z as Hmm
    by (symmetry; apply Z.mod_mod_divide; by exists 60%Z).
  pose proof (Z_div_mod_eq_full seconds 3600) as E1.
  pose proof (Z_div_mod_eq_full (seconds mod 3600) 60) as E2.
  assert (forall b, ":" +:+ b = String ":" b) as Hc by done.
  rewrite !Hc.
  destruct (Z.ltb_spec 0 (seconds / 3600)).
  - rewrite split_colon_app by (apply format_02d_no_colon; lia).
    rewrite split_colon_app by (by apply format_02d_no_colon).
    rewrite split_colon_no_colon by (apply format_02d_no_colon; lia).
    rewrite !int_format_02d by lia. f_equal. lia.
  - rewrite split_colon_app by (by apply format_02d_no_colon).
    rewrite split_colon_no_colon by (apply format_02d_no_colon; lia).
    rewrite !int_format_02d by lia. f_equal. lia.
Qed.

(** X1. For a number of seconds that is not negative, the string printed
    by [format_time] is read back by the duration parser of [play_next] as
    the same number, so the timer of a track with that duration waits the
    number of seconds and the 2-second buffer. *)
Theorem format_time_round_trip (seconds : Z) :
  (0 <= seconds)%Z ->
  parse_duration (format_time seconds) = Parsed seconds /\
  sleep_seconds (format_time seconds) = (seconds + 2)%Z.
Proof.
  intros Hs.
  assert (parse_duration (format_time seconds) = Parsed seconds) as Hp.
  { rewrite parse_format_time.
    destruct (Z.ltb_spec 0 (seconds / 3600)); [done|].
    f_equal. apply Z.mod_small.
    pose proof (Z.div_pos seconds 3600 Hs ltac:(lia)).
    pose proof (Z_div_mod_eq_full seconds 3600).
    pose proof (Z.mod_pos_bound seconds 3600 ltac:(lia)). lia. }
  split; [exact Hp|]. unfold sleep_seconds. by rewrite Hp.
Qed.

Lemma format_time_round_trip_witness :
  (0 <= 3725)%Z /\ format_time 3725 = "01:02:05" /\
  parse_duration (format_time 3725) = Parsed 3725.
Proof.
  split; [lia|]. split; [reflexivity|].
  apply (format_time_round_trip 3725). lia.
Defined.

(** X2. [format_time] prints no hours unless they are positive: for a
    negative number of seconds it prints the minutes and seconds of the
    number taken modulo one hour, the same string as for that remainder,
    and the parser reads back the remainder instead of the number. *)
Theorem format_time_loses_negative_hours (seconds : Z) :
  (seconds < 0)%Z ->
  format_time seconds = format_time (seconds mod 3600) /\
  length (Py.split_colon (format_time seconds)) = 2 /\
  parse_duration (format_time seconds) = Parsed (seconds mod 3600) /\
  parse_duration (format_time seconds) <> Parsed seconds.
Proof.
  intros Hneg.
  pose proof (Z.mod_pos_bound seconds 3600 ltac:(lia)) as Hm.
  assert (seconds / 3600 < 0)%Z as Hh by (apply Z.div_lt_upper_bound; lia).
  assert (parse_duration (format_time seconds) = Parsed (seconds mod 3600))
    as Hp.
  { rewrite parse_format_time.
    by destruct (Z.ltb_spec 0 (seconds / 3600)); [lia|]. }
  split; [|split; [|split]].
  - unfold format_time.
    rewrite (Z.mod_small (seconds mod 3600) 3600) by lia.
    rewrite (Z.div_small (seconds mod 3600) 3600) by lia.
    rewrite (Z.mod_mod_divide seconds 3600 60) by (by exists 60%Z).
    by destruct (Z.ltb_spec 0 (seconds / 3600)); [lia|].
  - unfold format_time.
    destruct (Z.ltb_spec 0 (seconds / 3600)); [lia|].
    assert (forall b, ":" +:+ b = String ":" b) as Hc by done.
    rewrite Hc.
    rewrite split_colon_app
      by (apply format_02d_no_colon, Z.div_pos; lia).
    rewrite split_colon_no_colon; [done|].
    apply format_02d_no_colon.
    pose proof (Z.mod_pos_bound seconds 60 ltac:(lia)). lia.
  - exact Hp.
  - rewrite Hp. intros [= Heq]. lia.
Qed.

Lemma format_time_loses_negative_hours_witness :
  (-7300 < 0)%Z /\ format_time (-7300) = "58:20" /\
  parse_duration (format_time (-7300)) = Parsed 3500.
Proof.
  split; [lia|]. split; [reflexivity|].
  destruct (format_time_loses_negative_hours (-7300)) as (_ & _ & H & _);
    [lia | exact H].
Defined.

(** ** Sessions do not interfere *)

Lemma same_session_at_trans c st1 st2 st3 :
  same_session_at c st1 st2 -> same_session_at c st2 st3 ->
  same_session_at c st1 st3.
Proof.
  intros (?&?&?&?) (?&?&?&?). repeat split; congruence.
Qed.

Lemma dequeue_frame c cid item rest st :
  c <> cid -> same_session_at c st (dequeue cid item rest st).
Proof.
  intros Hne. repeat split; simpl; by rewrite lookup_insert_ne.
Qed.

Lemma play_next_frame w cid st c :
  c <> cid -> same_session_at c st (bot (play_next w cid st)).
Proof.
  intros Hne. remember (queue_of st cid) as q eqn:Hq.
  revert st Hq. induction q as [|item rest IH]; intros st Hq;
    rewrite play_next_unfold, <- Hq; simpl.
  - repeat split; simpl; by rewrite ?lookup_insert_ne.
  - destruct (fetch_and_stream w cid item); simpl.
    + by apply (dequeue_frame c cid item rest st).
    + eapply same_session_at_trans;
        [by apply (dequeue_frame c cid item rest st)|].
      apply IH. by rewrite queue_of_dequeue.
Qed.

Lemma enqueue_frame c cid item st :
  c <> cid -> same_session_at c st (enqueue cid item st).1.
Proof.
  intros Hne. unfold enqueue.
  destruct (queues st !! cid); destruct (Nat.leb _ _);
    repeat split; simpl; by rewrite ?lookup_insert_ne.
Qed.

Lemma handle_frame w ev st c :
  c <> event_chat ev -> same_session_at c st (handle w ev st).
Proof.
  intros Hne.
  destruct ev as [m now|cid|cid|m|cid|cid|cid|sg cid]; simpl in *.
  - unfold play_command.
    repeat (case_match; simpl; try done).
    all: match goal with
         | H : enqueue ?k ?i ?s = (?s1, _) |- _ =>
             pose proof (enqueue_frame c k i s Hne) as He;
             rewrite H in He; simpl in He
         end; try done.
    eapply same_session_at_trans; [exact He|]. by apply play_next_frame.
  - unfold pause_command. repeat (case_match; simpl; try done).
    repeat split; simpl; by rewrite ?lookup_insert_ne.
  - unfold resume_command. repeat (case_match; simpl; try done).
    repeat split; simpl; by rewrite ?lookup_insert_ne.
  - unfold skip_command. repeat (case_match; simpl; try done).
    all: by apply (play_next_frame w (msg_chat m) (count_command st)).
  - unfold stop_command. repeat (case_match; simpl; try done).
    repeat split; simpl; by rewrite ?lookup_insert_ne.
  - repeat split; simpl;
      by rewrite ?lookup_insert_ne, ?lookup_delete_ne, ?lookup_alter_ne.
  - unfold clear_command. repeat (case_match; simpl; try done).
    repeat split; simpl; by rewrite ?lookup_insert_ne.
  - destruct sg; by apply play_next_frame.
Qed.

(** X3. Whatever commands and completion signals are handled for other
    chats, in any number and order and whatever the collaborators answer,
    the queue, the now-playing slot and the two flags of a chat stay as they
    were. *)
Theorem other_chats_never_interfere (w : World) (evs : list event)
  (st : MusicBot) (c : Z) :
  Forall (fun ev => event_chat ev <> c) evs ->
  same_session_at c st (run w evs st) /\
  queue_of (run w evs st) c = queue_of st c /\
  phase (run w evs st) c = phase st c.
Proof.
  intros Hall.
  assert (same_session_at c st (run w evs st)) as Hs.
  { revert st. induction Hall as [|ev evs Hev _ IH]; intros st; [done|].
    simpl. eapply same_session_at_trans; [|apply IH].
    apply handle_frame. congruence. }
  split; [exact Hs|]. destruct Hs as (Hq & _ & Hpl & Hpa).
  unfold phase, playing, paused, queue_of. by rewrite Hq, Hpl, Hpa.
Qed.

Lemma other_chats_never_interfere_witness :
  let evs := [EvPlay (Sample.play_msg ["Thunder"] "@c") 50;
              EvSignal TimerElapsed Sample.chat; EvEnd Sample.chat] in
  let st := set_queues (insert 8%Z [Sample.gone]) Sample.backlog in
  Forall (fun ev => event_chat ev <> 8%Z) evs /\
  queue_of (run Sample.world evs st) 8 = [Sample.gone] /\
  queue_of (run Sample.world evs st) Sample.chat = [].
Proof.
  intros evs st.
  assert (Forall (fun ev => event_chat ev <> 8%Z) evs) as Hall
    by (repeat constructor; discriminate).
  split; [exact Hall|].
  destruct (other_chats_never_interfere Sample.world evs st 8 Hall)
    as (_ & Hq & _).
  split; [|reflexivity]. etrans; [exact Hq | reflexivity].
Defined.

(** ** Queues stay bounded and registered *)

Lemma play_next_queue_shrinks w cid st :
  length (queue_of (bot (play_next w cid st)) cid) <= length (queue_of st cid).
Proof.
  pose proof (f_equal length (play_next_partition w cid st)) as H.
  rewrite length_app in H. unfold kept in H.
  destruct (coroutine (play_next w cid st)); simpl in H; lia.
Qed.

Lemma play_next_keeps_key w cid st c :
  is_Some (queues st !! c) -> is_Some (queues (bot (play_next w cid st)) !! c).
Proof.
  remember (queue_of st cid) as q eqn:Hq.
  revert st Hq. induction q as [|item rest IH]; intros st Hq Hs;
    rewrite play_next_unfold, <- Hq; simpl; [done|].
  assert (is_Some (queues (dequeue cid item rest st) !! c)) as Hd.
  { simpl. destruct (decide (cid = c)) as [->|Hne].
    - rewrite lookup_insert_eq. by eexists.
    - by rewrite lookup_insert_ne. }
  destruct (fetch_and_stream w cid item); simpl; [exact Hd|].
  apply IH; [by rewrite queue_of_dequeue | exact Hd].
Qed.

Lemma queue_of_same c st st' :
  queues st' !! c = queues st !! c -> queue_of st' c = queue_of st c.
Proof. unfold queue_of. by intros ->. Qed.

Lemma enqueue_length cid item st :
  length (queue_of st cid) <= Config.MAX_QUEUE_SIZE ->
  length (queue_of (enqueue cid item st).1 cid) <= Config.MAX_QUEUE_SIZE.
Proof.
  intros Hle.
  destruct (Nat.le_gt_cases Config.MAX_QUEUE_SIZE (length (queue_of st cid)))
    as [Hfull|Hlt].
  - by rewrite enqueue_full.
  - destruct (enqueue_below cid item st Hlt) as (_ & -> & _).
    rewrite length_app. simpl. lia.
Qed.

Lemma enqueue_keeps_key cid item st c :
  is_Some (queues st !! c) -> is_Some (queues (enqueue cid item st).1 !! c).
Proof.
  intros Hs. unfold enqueue.
  destruct (queues st !! cid) eqn:Hq; destruct (Nat.leb _ _); simpl; try done.
  all: destruct (decide (cid = c)) as [->|Hne];
    rewrite ?lookup_insert_eq, ?lookup_insert_ne by done; done.
Qed.

Lemma handle_within_capacity w ev st :
  within_capacity st -> within_capacity (handle w ev st).
Proof.
  intros Hcap c.
  destruct (decide (c = event_chat ev)) as [->|Hne].
  2: { destruct (handle_frame w ev st c Hne) as (Hq & _).
       rewrite (queue_of_same _ _ _ Hq). apply Hcap. }
  destruct ev as [m now|cid|cid|m|cid|cid|cid|sg cid]; simpl.
  - unfold play_command.
    repeat (case_match; simpl; try apply Hcap).
    all: match goal with
         | H : enqueue ?k ?i ?s = (?s1, _) |- _ =>
             pose proof (enqueue_length k i s (Hcap k)) as He;
             rewrite H in He; simpl in He
         end; try done.
    etrans; [apply play_next_queue_shrinks | exact He].
  - unfold pause_command. repeat (case_match; simpl); apply Hcap.
  - unfold resume_command. repeat (case_match; simpl); apply Hcap.
  - unfold skip_command. repeat (case_match; simpl); try apply Hcap.
    all: etrans; [apply play_next_queue_shrinks | apply Hcap].
  - unfold stop_command. repeat (case_match; simpl); apply Hcap.
  - unfold queue_of; simpl. rewrite lookup_alter_eq.
    destruct (queues st !! cid); simpl; lia.
  - unfold clear_command. repeat (case_match; simpl); try apply Hcap.
    unfold queue_of; simpl. rewrite lookup_insert_eq. simpl. lia.
  - assert (deliver w sg cid st = play_next w cid st) as ->
      by (by destruct sg).
    etrans; [apply play_next_queue_shrinks | apply Hcap].
Qed.

(** X4. From a fresh bot no sequence of commands and signals makes a queue
    longer than [Config.MAX_QUEUE_SIZE]; more generally the handlers keep
    every queue within the maximum once all queues are within it (a snapshot
    loaded from a file may hold longer ones). *)
Theorem queues_stay_within_capacity (w : World) (ev : event) (st : MusicBot) :
  (within_capacity st -> within_capacity (handle w ev st)) /\
  (reachable new_bot st ->
   forall cid, length (queue_of st cid) <= Config.MAX_QUEUE_SIZE).
Proof.
  split; [apply handle_within_capacity|].
  induction 1 as [|st' w' ev' _ IH].
  - intros cid. unfold queue_of; simpl. rewrite lookup_empty. simpl. lia.
  - by apply handle_within_capacity.
Qed.

Lemma queues_stay_within_capacity_witness :
  reachable new_bot Sample.backlog /\
  length (queue_of Sample.backlog Sample.chat) <= Config.MAX_QUEUE_SIZE.
Proof.
  assert (reachable new_bot Sample.backlog) as Hr
    by (apply run_reachable; constructor).
  split; [exact Hr|].
  destruct (queues_stay_within_capacity Sample.world (EvEnd Sample.chat)
              Sample.backlog) as [_ H].
  apply (H Hr).
Defined.

(** X5. No handler removes a chat from the registry of queues: a chat that
    has a queue, even an empty one, still has one after any command or
    signal, so the number of registered chats never goes down. *)
Theorem registry_never_forgets (w : World) (ev : event) (st : MusicBot)
  (c : Z) :
  is_Some (queues st !! c) -> is_Some (queues (handle w ev st) !! c).
Proof.
  intros Hs.
  destruct ev as [m now|cid|cid|m|cid|cid|cid|sg cid]; simpl.
  - unfold play_command.
    repeat (case_match; simpl; try done).
    all: match goal with
         | H : enqueue ?k ?i ?s = (?s1, _) |- _ =>
             pose proof (enqueue_keeps_key k i s c Hs) as He;
             rewrite H in He; simpl in He
         end; try done.
    by apply play_next_keeps_key.
  - unfold pause_command. by repeat (case_match; simpl).
  - unfold resume_command. by repeat (case_match; simpl).
  - unfold skip_command. repeat (case_match; simpl); try done.
    all: by apply (play_next_keeps_key w (msg_chat m) (count_command st)).
  - unfold stop_command. by repeat (case_match; simpl).
  - destruct (decide (cid = c)) as [->|Hne].
    + rewrite lookup_alter_eq. destruct Hs as [q ->]. by eexists.
    + by rewrite lookup_alter_ne.
  - unfold clear_command. repeat (case_match; simpl); try done.
    destruct (decide (cid = c)) as [->|Hne].
    + rewrite lookup_insert_eq. by eexists.
    + by rewrite lookup_insert_ne.
  - destruct sg; by apply play_next_keeps_key.
Qed.

Lemma registry_never_forgets_witness :
  is_Some (queues Sample.backlog !! Sample.chat) /\
  is_Some (queues (handle Sample.world (EvEnd Sample.chat) Sample.backlog)
           !! Sample.chat).
Proof.
  assert (is_Some (queues Sample.backlog !! Sample.chat)) as Hs
    by (by eexists).
  split; [exact Hs|].
  exact (registry_never_forgets Sample.world (EvEnd Sample.chat)
           Sample.backlog Sample.chat Hs).
Defined.

(** ** The counters *)

Lemma play_next_counters w cid st :
  commands_used (bot (play_next w cid st)) = commands_used st /\
  songs_played (bot (play_next w cid st))
  = songs_played st + started (play_next w cid st).
Proof.
  remember (queue_of st cid) as q eqn:Hq.
  revert st Hq. induction q as [|item rest IH]; intros st Hq;
    rewrite play_next_unfold, <- Hq; simpl.
  - unfold started; simpl. lia.
  - destruct (fetch_and_stream w cid item); simpl.
    + unfold started; simpl. lia.
    + destruct (IH (dequeue cid item rest st)) as [Hc Hs];
        [by rewrite queue_of_dequeue|].
      unfold started in *. simpl in *. done.
Qed.

Lemma enqueue_counters cid item st :
  commands_used (enqueue cid item st).1 = commands_used st /\
  songs_played (enqueue cid item st).1 = songs_played st.
Proof.
  unfold enqueue. by destruct (queues st !! cid); destruct (Nat.leb _ _).
Qed.

(** X6. Every command adds exactly one to the counter of used commands,
    whether it is accepted, refused or failed, and a completion signal adds
    nothing.  The counter of played songs never goes down and grows by at
    most one per event; on a completion signal it grows by one exactly when
    the advance leaves a track streaming, however many items failed on the
    way. *)
Theorem counters_follow_the_events (w : World) (ev : event) (st : MusicBot) :
  commands_used (handle w ev st)
  = commands_used st + (if is_signal ev then 0 else 1) /\
  songs_played st <= songs_played (handle w ev st) <= songs_played st + 1 /\
  (forall sg cid,
     songs_played (handle w (EvSignal sg cid) st)
     = songs_played st + started (deliver w sg cid st)).
Proof.
  assert (forall a, started a <= 1) as Hst
    by (intros a; unfold started; destruct (coroutine a); lia).
  assert (forall sg cid, deliver w sg cid st = play_next w cid st) as Hd
    by (by intros []).
  split; [|split].
  3: { intros sg cid. simpl. rewrite Hd.
       by destruct (play_next_counters w cid st). }
  all: destruct ev as [m now|cid|cid|m|cid|cid|cid|sg cid]; simpl.
  all: try (unfold play_command; repeat (case_match; simpl; try lia);
            match goal with
            | H : enqueue ?k ?i ?s = (?s1, _) |- _ =>
                pose proof (enqueue_counters k i s) as [Hc Hs];
                rewrite H in Hc, Hs; simpl in Hc, Hs
            end; try lia;
            match goal with
            | |- context [play_next ?w ?k ?s] =>
                destruct (play_next_counters w k s) as [Hc' Hs'];
                pose proof (Hst (play_next w k s))
            end; lia).
  all: try (unfold pause_command; repeat (case_match; simpl); lia).
  all: try (unfold resume_command; repeat (case_match; simpl); lia).
  all: try (unfold skip_command; repeat (case_match; simpl); try lia;
            destruct (play_next_counters w (msg_chat m) (count_command st))
              as [Hc' Hs'];
            pose proof (Hst (play_next w (msg_chat m) (count_command st)));
            simpl in *; lia).
  all: try (unfold stop_command; repeat (case_match; simpl); lia).
  all: try (unfold clear_command; repeat (case_match; simpl); lia).
  all: try lia.
  all: rewrite Hd; destruct (play_next_counters w cid st) as [Hc' Hs'];
    pose proof (Hst (play_next w cid st)); lia.
Qed.

(** ** Pause and resume *)

(** X7. On a streaming session whose transport accepts both requests,
    pause makes the session Paused, a second pause is refused, and resume
    makes it Streaming again; after the two commands the queues, the
    now-playing slots and the playing flags are what they were. *)
Theorem pause_then_resume w cid st :
  phase st cid = Streaming ->
  pause_stream w cid = true -> resume_stream w cid = true ->
  let p := pause_command w cid st in
  let r := resume_command w cid p.1 in
  p.2 = MusicPaused /\ phase p.1 cid = Paused /\
  (pause_command w cid p.1).2 = NotPlayingOrAlreadyPaused /\
  r.2 = MusicResumed /\ phase r.1 cid = Streaming /\
  queues r.1 = queues st /\ now_playing r.1 = now_playing st /\
  is_playing r.1 = is_playing st.
Proof.
  intros Hph Hp Hr.
  assert (playing st cid = true /\ paused st cid = false) as [Hpl Hpa].
  { unfold phase in Hph. destruct (playing st cid), (paused st cid); done. }
  assert (pause_command w cid st
          = (set_is_paused cid true (count_command st), MusicPaused)) as Hpc.
  { unfold pause_command.
    change (playing (count_command st) cid) with (playing st cid).
    change (paused (count_command st) cid) with (paused st cid).
    by rewrite Hpl, Hpa, Hp. }
  simpl. rewrite Hpc. simpl.
  assert (paused (set_is_paused cid true (count_command st)) cid = true) as Hp1
    by (unfold paused; simpl; by rewrite lookup_insert_eq).
  assert (playing (set_is_paused cid true (count_command st)) cid = true) as Hp2
    by exact Hpl.
  unfold pause_command, resume_command.
  change (paused (count_command ?s) cid) with (paused s cid).
  change (playing (count_command ?s) cid) with (playing s cid).
  rewrite Hp1, Hp2, Hr. simpl.
  repeat split.
  - unfold phase. by rewrite Hp2, Hp1.
  - unfold phase, playing, paused in *; simpl. rewrite Hpl.
    by rewrite lookup_insert_eq.
Qed.

Lemma pause_then_resume_witness :
  let p := pause_command Sample.world Sample.chat Sample.backlog in
  phase Sample.backlog Sample.chat = Streaming /\
  phase p.1 Sample.chat = Paused /\
  phase (resume_command Sample.world Sample.chat p.1).1 Sample.chat
  = Streaming.
Proof.
  intros p.
  destruct (pause_then_resume Sample.world Sample.chat Sample.backlog)
    as (_ & Hp & _ & _ & Hr & _); [reflexivity..|].
  split; [reflexivity|]. split; [exact Hp | exact Hr].
Defined.

(** X8. When the transport raises on the pause request of a streaming
    session, or on the resume request of a paused one, the command answers
    with its failure message and no queue, slot or flag has changed. *)
Theorem refused_by_transport w cid st :
  (phase st cid = Streaming -> pause_stream w cid = false ->
   (pause_command w cid st).2 = PauseFailed /\
   same_sessions st (pause_command w cid st).1) /\
  (paused st cid = true -> resume_stream w cid = false ->
   (resume_command w cid st).2 = ResumeFailed /\
   same_sessions st (resume_command w cid st).1).
Proof.
  split.
  - intros Hph Hp.
    assert (playing st cid = true /\ paused st cid = false) as [Hpl Hpa].
    { unfold phase in Hph. destruct (playing st cid), (paused st cid); done. }
    unfold pause_command.
    change (playing (count_command st) cid) with (playing st cid).
    change (paused (count_command st) cid) with (paused st cid).
    by rewrite Hpl, Hpa, Hp.
  - intros Hpa Hr. unfold resume_command.
    change (paused (count_command st) cid) with (paused st cid).
    by rewrite Hpa, Hr.
Qed.

Lemma refused_by_transport_witness :
  phase Sample.backlog Sample.chat = Streaming /\
  (pause_command Sample2.refusing_world Sample.chat Sample.backlog).2
  = PauseFailed /\
  paused Sample2.paused_believer Sample.chat = true /\
  (resume_command Sample2.refusing_world Sample.chat
     Sample2.paused_believer).2 = ResumeFailed.
Proof.
  destruct (refused_by_transport Sample2.refusing_world Sample.chat
              Sample.backlog) as [Hp _].
  destruct (refused_by_transport Sample2.refusing_world Sample.chat
              Sample2.paused_believer) as [_ Hr].
  destruct Hp as [Hp _]; [reflexivity..|].
  destruct Hr as [Hr _]; [reflexivity..|].
  split; [reflexivity|]. split; [exact Hp|]. split; [reflexivity | exact Hr].
Defined.

(** ** Skip *)

Lemma skip_command_cases w m st :
  playing st (msg_chat m) = true ->
  skip_command w m st =
  if may_skip m st
  then (bot (play_next w (msg_chat m) (count_command st)), Skipping,
        coroutine (play_next w (msg_chat m) (count_command st)))
  else (count_command st, NotYourSong, Returned).
Proof.
  intros Hpl. unfold skip_command, may_skip.
  change (playing (count_command st) (msg_chat m)) with (playing st (msg_chat m)).
  rewrite Hpl. simpl.
  change (now_playing (count_command st)) with (now_playing st).
  destruct (now_playing st !! msg_chat m) as [song|]; [|done].
  unfold is_admin; simpl. by destruct (String.eqb _ _).
Qed.

(** [is_admin] answers false whoever asks, so the test of [skip_command]
    lets the requester through and nobody else, unless the slot is empty. *)
Lemma may_skip_requester m st :
  may_skip m st = true <->
  (forall song, now_playing st !! msg_chat m = Some song ->
                requested_by song = msg_mention m).
Proof.
  unfold may_skip.
  destruct (now_playing st !! msg_chat m) as [song|]; [|done].
  change (is_admin (msg_chat m) (msg_user m)) with false.
  rewrite orb_false_r. split.
  - intros Heq song' [= <-]. by apply String.eqb_eq.
  - intros H. apply String.eqb_eq. by apply H.
Qed.

(** X9. While a session plays, a skip sent by somebody who is not the
    requester of the now-playing item is refused: nothing is dequeued and
    only the command counter moves.  The second way through the test, being
    an admin, is open to nobody, since [is_admin] answers false for the
    sender whoever it is. *)
Theorem skip_needs_requester_or_admin w m st song :
  playing st (msg_chat m) = true ->
  now_playing st !! msg_chat m = Some song ->
  requested_by song <> msg_mention m ->
  is_admin (msg_chat m) (msg_user m) = false /\
  skip_command w m st = (count_command st, NotYourSong, Returned).
Proof.
  intros Hpl Hnp Hne. split; [done|]. rewrite skip_command_cases by done.
  unfold may_skip. rewrite Hnp.
  by destruct (String.eqb_spec (requested_by song) (msg_mention m)).
Qed.

Lemma skip_needs_requester_or_admin_witness :
  now_playing Sample.backlog !! Sample.chat = Some Sample.believer /\
  requested_by Sample.believer <> "@b" /\
  skip_command Sample.world (Sample2.msg_from "@b" 1002) Sample.backlog
  = (count_command Sample.backlog, NotYourSong, Returned).
Proof.
  split; [reflexivity|]. split; [discriminate|].
  apply (skip_needs_requester_or_admin Sample.world
           (Sample2.msg_from "@b" 1002) Sample.backlog Sample.believer);
    [reflexivity | reflexivity | discriminate].
Defined.

(** X10. A skip by the requester of the now-playing item is an advance,
    and so is any skip of a playing session whose slot is empty.  When the
    head of the queue is fetched and accepted it becomes the now-playing
    item, the rest stays queued and the session is Streaming, also when it
    was paused.  When nothing is queued the session becomes Idle, the queue
    is untouched and the skipped item stays in the now-playing slot. *)
Theorem skip_advances w m st :
  playing st (msg_chat m) = true ->
  (forall song, now_playing st !! msg_chat m = Some song ->
                requested_by song = msg_mention m) ->
  let cid := msg_chat m in
  let r := skip_command w m st in
  r.1.2 = Skipping /\
  (forall x rest p,
     queue_of st cid = x :: rest -> fetch_and_stream w cid x = Some p ->
     now_playing r.1.1 !! cid = Some x /\ queue_of r.1.1 cid = rest /\
     phase r.1.1 cid = Streaming /\
     r.2 = Sleeping x p (sleep_seconds (duration x))) /\
  (queue_of st cid = [] ->
   phase r.1.1 cid = Idle /\ r.2 = Returned /\
   now_playing r.1.1 = now_playing st /\ queues r.1.1 = queues st).
Proof.
  intros Hpl Hmay cid r. apply may_skip_requester in Hmay.
  subst r. rewrite skip_command_cases by done.
  rewrite Hmay. simpl. split; [done|]. fold cid. split.
  - intros x rest p Hq Hf. rewrite play_next_unfold.
    change (queue_of (count_command st) cid) with (queue_of st cid).
    rewrite Hq. simpl. rewrite Hf. simpl.
    repeat split.
    + by rewrite lookup_insert_eq.
    + unfold queue_of; simpl. by rewrite lookup_insert_eq.
    + unfold phase, playing, paused; simpl. by rewrite !lookup_insert_eq.
  - intros Hq. rewrite play_next_unfold.
    change (queue_of (count_command st) cid) with (queue_of st cid).
    rewrite Hq. simpl. repeat split.
    unfold phase, playing; simpl. by rewrite lookup_insert_eq.
Qed.

Lemma skip_advances_witness :
  let r := skip_command Sample.world (Sample2.msg_from "@a" 1001)
             Sample.backlog in
  requested_by <$> now_playing Sample.backlog !! Sample.chat = Some "@a" /\
  now_playing r.1.1 !! Sample.chat = Some Sample.lose_yourself /\
  queue_of r.1.1 Sample.chat = [Sample.thunder].
Proof.
  intros r.
  destruct (skip_advances Sample.world (Sample2.msg_from "@a" 1001)
              Sample.backlog) as (_ & H & _);
    [reflexivity | |].
  { intros song Hs.
    assert (Some song = Some Sample.believer) as [= ->]
      by (rewrite <- Hs; reflexivity).
    reflexivity. }
  destruct (H Sample.lose_yourself [Sample.thunder] "temp/yt/lose")
    as (Hn & Hq & _); [reflexivity..|].
  split; [reflexivity|]. split; [exact Hn | exact Hq].
Defined.

(** ** Clear *)

(** X11. The clear command never touches the now-playing slots or the
    flags.  On a queue that holds items it answers with their number and
    leaves the queue empty, so that a second clear is refused; on an empty
    or missing queue it is refused and the registry of queues is left as it
    was. *)
Theorem clear_command_empties_the_queue cid st :
  let r := clear_command cid st in
  now_playing r.1 = now_playing st /\ is_playing r.1 = is_playing st /\
  is_paused r.1 = is_paused st /\
  (queue_of st cid <> [] ->
   r.2 = Cleared (length (queue_of st cid)) /\ queue_of r.1 cid = [] /\
   (clear_command cid r.1).2 = QueueAlreadyEmpty) /\
  (queue_of st cid = [] -> r.2 = QueueAlreadyEmpty /\ queues r.1 = queues st).
Proof.
  unfold clear_command, queue_of.
  change (queues (count_command ?s)) with (queues s).
  destruct (queues st !! cid) as [[|x q]|] eqn:Hq; simpl; repeat split; try done.
  - by rewrite lookup_insert_eq.
  - rewrite Hq. simpl. by rewrite lookup_insert_eq.
Qed.

Lemma clear_command_empties_the_queue_witness :
  let r := clear_command Sample.chat Sample.backlog in
  queue_of Sample.backlog Sample.chat <> [] /\
  r.2 = Cleared 2 /\ queue_of r.1 Sample.chat = [] /\
  phase r.1 Sample.chat = Streaming.
Proof.
  intros r.
  destruct (clear_command_empties_the_queue Sample.chat Sample.backlog)
    as (_ & _ & _ & H & _).
  destruct H as (Hr & Hq & _); [discriminate|].
  split; [discriminate|]. split; [exact Hr|]. split; [exact Hq | reflexivity].
Defined.

(** ** Play *)

(** X12. A play command that fails one of its checks changes nothing but
    the command counter: sent outside a group, sent by somebody known not
    to be in the voice chat, sent without a query, or with a query for which
    the resolver finds nothing or an empty title. *)
Theorem play_command_rejections w m now st :
  let r := play_command w m now st in
  (msg_in_group m = false -> r = (count_command st, GroupsOnly, Returned)) /\
  (msg_in_group m = true -> msg_joined m = Some false ->
   r = (count_command st, NotInVoiceChat, Returned)) /\
  (msg_in_group m = true -> msg_joined m <> Some false ->
   length (msg_command m) < 2 ->
   r = (count_command st, MissingQuery, Returned)) /\
  (well_formed m ->
   match search_youtube w (Py.join_space (tail (msg_command m))) with
   | Some (t, _, _) => t = EmptyString
   | None => True
   end ->
   r = (count_command st, NoResults, Returned)).
Proof.
  unfold play_command. repeat split.
  - by intros ->.
  - intros -> ->. done.
  - intros -> Hj Hlen. simpl. rewrite bool_decide_eq_false_2 by done.
    by destruct (Nat.ltb_spec (length (msg_command m)) 2); [|lia].
  - intros (-> & Hj & Hlen) Hs. simpl. rewrite bool_decide_eq_false_2 by done.
    destruct (Nat.ltb_spec (length (msg_command m)) 2); [lia|].
    destruct (search_youtube w _) as [[[t u] d]|]; [|done].
    by subst t.
Qed.

Lemma play_command_rejections_witness :
  let m := {| msg_chat := Sample.chat; msg_in_group := false;
              msg_joined := None; msg_command := ["/play"; "Believer"];
              msg_mention := "@a"; msg_user := 1001 |} in
  msg_in_group m = false /\
  play_command Sample.world m 10 Sample.backlog
  = (count_command Sample.backlog, GroupsOnly, Returned) /\
  play_command Sample.world (Sample.play_msg ["Unknown"] "@a") 10 new_bot
  = (count_command new_bot, NoResults, Returned).
Proof.
  intros m.
  destruct (play_command_rejections Sample.world m 10 Sample.backlog)
    as (H1 & _).
  destruct (play_command_rejections Sample.world
              (Sample.play_msg ["Unknown"] "@a") 10 new_bot)
    as (_ & _ & _ & H4).
  split; [reflexivity|]. split; [by apply H1|].
  apply H4; [|exact I]. repeat split; [discriminate | simpl; lia].
Defined.

(** X13. When the session is not paused, an accepted play command starts
    the head of the queue as it is after the append: the new request when
    the queue was empty, otherwise the oldest waiting request, while the
    answer names the new request in both cases.  The rest of the queue,
    which ends with the new request, stays queued. *)
Theorem play_starts_the_head_of_the_queue w m now st t u d x rest p :
  well_formed m ->
  search_youtube w (Py.join_space (tail (msg_command m))) = Some (t, u, d) ->
  Py.truthy_str t = true ->
  phase st (msg_chat m) <> Paused ->
  length (queue_of st (msg_chat m)) < Config.MAX_QUEUE_SIZE ->
  queue_of st (msg_chat m) ++ [new_request m t u d now] = x :: rest ->
  fetch_and_stream w (msg_chat m) x = Some p ->
  let r := play_command w m now st in
  r.1.2 = NowPlaying t /\
  r.2 = Sleeping x p (sleep_seconds (duration x)) /\
  now_playing r.1.1 !! msg_chat m = Some x /\
  queue_of r.1.1 (msg_chat m) = rest /\
  phase r.1.1 (msg_chat m) = Streaming /\
  songs_played r.1.1 = S (songs_played st).
Proof.
  intros Hwf Hs Ht Hph Hlt Hq Hf.
  destruct (play_command_accepted w m now st t u d Hwf Hs Ht Hlt) as [Hq1 ->].
  assert (negb (playing st (msg_chat m)) || negb (paused st (msg_chat m)) = true)
    as ->.
  { unfold phase in Hph.
    destruct (playing st (msg_chat m)), (paused st (msg_chat m)); done. }
  simpl. rewrite play_next_unfold.
  fold (new_request m t u d now) in Hq1 |- *.
  rewrite Hq1, Hq. simpl. rewrite Hf. simpl. repeat split.
  - by rewrite lookup_insert_eq.
  - unfold queue_of; simpl. by rewrite lookup_insert_eq.
  - unfold phase, playing, paused; simpl. by rewrite !lookup_insert_eq.
  - f_equal. unfold enqueue. by destruct (queues _ !! _); destruct (Nat.leb _ _).
Qed.

Lemma play_starts_the_head_of_the_queue_witness :
  let m := Sample.play_msg ["Believer"] "@a" in
  let r := play_command Sample.world m 60 Sample2.stopped_backlog in
  phase Sample2.stopped_backlog Sample.chat = Idle /\
  r.1.2 = NowPlaying "Believer" /\
  now_playing r.1.1 !! Sample.chat = Some Sample.lose_yourself /\
  queue_of r.1.1 Sample.chat
  = [Sample.thunder; new_request m "Believer" "yt/believer" "3:44" 60].
Proof.
  intros m r.
  destruct (play_starts_the_head_of_the_queue Sample.world m 60
              Sample2.stopped_backlog "Believer" "yt/believer" "3:44"
              Sample.lose_yourself
              [Sample.thunder; new_request m "Believer" "yt/believer" "3:44" 60]
              "temp/yt/lose")
    as (Ha & _ & Hn & Hq & _);
    [repeat split; [discriminate | simpl; lia] | reflexivity | reflexivity
    | discriminate | vm_compute; lia | reflexivity | reflexivity |].
  split; [reflexivity|]. split; [exact Ha|]. split; [exact Hn | exact Hq].
Defined.

(** X14. The answer of an accepted play command to a session that is not
    paused is "now playing" with the requested title even when nothing
    streams: if the fetch fails for every item of the queue, the new request
    included, the session is Idle with an empty queue. *)
Theorem play_answers_now_playing_without_a_stream w m now st t u d :
  well_formed m ->
  search_youtube w (Py.join_space (tail (msg_command m))) = Some (t, u, d) ->
  Py.truthy_str t = true ->
  phase st (msg_chat m) <> Paused ->
  length (queue_of st (msg_chat m)) < Config.MAX_QUEUE_SIZE ->
  Forall (fun item => fetch_and_stream w (msg_chat m) item = None)
    (queue_of st (msg_chat m) ++ [new_request m t u d now]) ->
  let r := play_command w m now st in
  r.1.2 = NowPlaying t /\ r.2 = Returned /\
  phase r.1.1 (msg_chat m) = Idle /\ queue_of r.1.1 (msg_chat m) = [].
Proof.
  intros Hwf Hs Ht Hph Hlt Hall.
  destruct (play_command_accepted w m now st t u d Hwf Hs Ht Hlt) as [Hq1 ->].
  assert (negb (playing st (msg_chat m)) || negb (paused st (msg_chat m)) = true)
    as ->.
  { unfold phase in Hph.
    destruct (playing st (msg_chat m)), (paused st (msg_chat m)); done. }
  simpl. fold (new_request m t u d now) in Hq1 |- *.
  rewrite <- Hq1 in Hall.
  destruct (play_next_all_fail w _ _ Hall) as [Hret _].
  destruct (play_next_returned w _ _ Hret) as [Hidle Hempty].
  done.
Qed.

Lemma play_answers_now_playing_without_a_stream_witness :
  let m := Sample.play_msg ["Gone"] "@c" in
  let r := play_command Sample2.gone_world m 30 new_bot in
  fetch_and_stream Sample2.gone_world Sample.chat
    (new_request m "Gone" "yt/gone" "2:00" 30) = None /\
  r.1.2 = NowPlaying "Gone" /\ phase r.1.1 Sample.chat = Idle.
Proof.
  intros m r.
  destruct (play_answers_now_playing_without_a_stream Sample2.gone_world m 30
              new_bot "Gone" "yt/gone" "2:00")
    as (Ha & _ & Hi & _);
    [repeat split; [discriminate | simpl; lia] | reflexivity | reflexivity
    | discriminate | vm_compute; lia | by repeat constructor |].
  split; [reflexivity|]. split; [exact Ha | exact Hi].
Defined.

(** X15. In a paused session an accepted play command only queues: the
    request becomes the last item of the queue, the answer gives its
    position, and the now-playing slot and the flags are untouched. *)
Theorem play_while_paused_only_queues w m now st t u d :
  well_formed m ->
  search_youtube w (Py.join_space (tail (msg_command m))) = Some (t, u, d) ->
  Py.truthy_str t = true ->
  phase st (msg_chat m) = Paused ->
  length (queue_of st (msg_chat m)) < Config.MAX_QUEUE_SIZE ->
  let r := play_command w m now st in
  r.1.2 = AddedToQueue (S (length (queue_of st (msg_chat m)))) t /\
  r.2 = Returned /\
  queue_of r.1.1 (msg_chat m)
  = queue_of st (msg_chat m) ++ [new_request m t u d now] /\
  now_playing r.1.1 = now_playing st /\
  is_playing r.1.1 = is_playing st /\ is_paused r.1.1 = is_paused st.
Proof.
  intros Hwf Hs Ht Hph Hlt.
  destruct (play_command_accepted w m now st t u d Hwf Hs Ht Hlt) as [Hq1 ->].
  assert (negb (playing st (msg_chat m)) || negb (paused st (msg_chat m)) = false)
    as ->.
  { unfold phase in Hph.
    destruct (playing st (msg_chat m)), (paused st (msg_chat m)); done. }
  simpl. fold (new_request m t u d now) in Hq1 |- *.
  destruct (enqueue_below (msg_chat m) (new_request m t u d now)
              (count_command st) Hlt) as (_ & _ & ? & ? & ?).
  done.
Qed.

Lemma play_while_paused_only_queues_witness :
  let m := Sample.play_msg ["Thunder"] "@a" in
  let r := play_command Sample.world m 40 Sample2.paused_believer in
  phase Sample2.paused_believer Sample.chat = Paused /\
  r.1.2 = AddedToQueue 1 "Thunder" /\
  queue_of r.1.1 Sample.chat = [Sample.thunder] /\
  now_playing r.1.1 !! Sample.chat = Some Sample.believer.
Proof.
  intros m r.
  destruct (play_while_paused_only_queues Sample.world m 40
              Sample2.paused_believer "Thunder" "yt/thunder" "3:07")
    as (Ha & _ & Hq & Hn & _);
    [repeat split; [discriminate | simpl; lia] | reflexivity | reflexivity
    | reflexivity | vm_compute; lia |].
  split; [reflexivity|]. split; [exact Ha|]. split; [exact Hq|].
  subst r. rewrite Hn. reflexivity.
Defined.

(** ** How stop, end and the signals compose *)

(** X16. When a completion signal reaches a paused session with an empty
    queue, the session stops playing but keeps its paused flag: it is Idle,
    a pause is refused, and a resume is accepted by the handler, which
    answers "resumed" although the session stays Idle. *)
Theorem stream_end_keeps_the_paused_flag w w' sg cid st :
  paused st cid = true -> queue_of st cid = [] ->
  let st' := bot (deliver w sg cid st) in
  phase st' cid = Idle /\ paused st' cid = true /\
  (pause_command w' cid st').2 = NotPlayingOrAlreadyPaused /\
  (resume_stream w' cid = true ->
   (resume_command w' cid st').2 = MusicResumed /\
   phase (resume_command w' cid st').1 cid = Idle).
Proof.
  intros Hpa Hq.
  assert (deliver w sg cid st = play_next w cid st) as -> by (by destruct sg).
  rewrite play_next_unfold, Hq. simpl.
  assert (playing (set_is_playing cid false st) cid = false) as Hpl
    by (unfold playing; simpl; by rewrite lookup_insert_eq).
  assert (paused (set_is_playing cid false st) cid = true) as Hpa' by exact Hpa.
  split; [by apply playing_false_idle|]. split; [done|].
  unfold pause_command, resume_command.
  change (paused (count_command ?s) cid) with (paused s cid).
  change (playing (count_command ?s) cid) with (playing s cid).
  rewrite Hpl, Hpa'. simpl. split; [done|]. intros ->. simpl.
  split; [done|]. by apply playing_false_idle.
Qed.

Lemma stream_end_keeps_the_paused_flag_witness :
  let st' := bot (deliver Sample.world TimerElapsed Sample.chat
                    Sample2.paused_believer) in
  paused Sample2.paused_believer Sample.chat = true /\
  phase st' Sample.chat = Idle /\
  (resume_command Sample.world Sample.chat st').2 = MusicResumed.
Proof.
  intros st'.
  destruct (stream_end_keeps_the_paused_flag Sample.world Sample.world
              TimerElapsed Sample.chat Sample2.paused_believer)
    as (Hi & _ & _ & Hr); [reflexivity..|].
  destruct Hr as [Hr _]; [reflexivity|].
  split; [reflexivity|]. split; [exact Hi | exact Hr].
Defined.

(** X17. An accepted stop makes the session Idle but the timer of the
    stopped track is still pending: when it elapses, [play_next] starts the
    head of the queue and the session streams again. *)
Theorem stop_does_not_cancel_the_timer w w' cid st x rest p :
  playing st cid = true -> leave_group_call w cid = true ->
  queue_of st cid = x :: rest -> fetch_and_stream w' cid x = Some p ->
  let stopped := (stop_command w cid st).1 in
  let a := deliver w' TimerElapsed cid stopped in
  phase stopped cid = Idle /\
  phase (bot a) cid = Streaming /\
  now_playing (bot a) !! cid = Some x /\
  queue_of (bot a) cid = rest.
Proof.
  intros Hpl Hleave Hq Hf. unfold stop_command.
  change (playing (count_command st) cid) with (playing st cid).
  rewrite Hpl, Hleave. simpl.
  split; [unfold phase, playing; simpl; by rewrite lookup_insert_eq|].
  unfold timer_elapsed. rewrite play_next_unfold.
  change (queue_of (set_is_paused cid false
                      (set_is_playing cid false (count_command st))) cid)
    with (queue_of st cid).
  rewrite Hq. simpl. rewrite Hf. simpl. repeat split.
  - unfold phase, playing, paused; simpl. by rewrite !lookup_insert_eq.
  - by rewrite lookup_insert_eq.
  - unfold queue_of; simpl. by rewrite lookup_insert_eq.
Qed.

Lemma stop_does_not_cancel_the_timer_witness :
  let stopped := (stop_command Sample.world Sample.chat Sample.backlog).1 in
  let a := deliver Sample.world TimerElapsed Sample.chat stopped in
  playing Sample.backlog Sample.chat = true /\
  phase stopped Sample.chat = Idle /\
  phase (bot a) Sample.chat = Streaming /\
  now_playing (bot a) !! Sample.chat = Some Sample.lose_yourself.
Proof.
  intros stopped a.
  destruct (stop_does_not_cancel_the_timer Sample.world Sample.world
              Sample.chat Sample.backlog Sample.lose_yourself
              [Sample.thunder] "temp/yt/lose")
    as (Hi & Hs & Hn & _); [reflexivity..|].
  split; [reflexivity|]. split; [exact Hi|]. split; [exact Hs | exact Hn].
Defined.

(** X18. After the end command a late completion signal finds the queue
    empty: its advance returns at once and no queue, slot or flag of any
    session differs from what the end command left. *)
Theorem signal_after_end_changes_nothing w w' sg cid st :
  let ended := (end_command w cid st).1 in
  coroutine (deliver w' sg cid ended) = Returned /\
  same_sessions ended (bot (deliver w' sg cid ended)).
Proof.
  simpl.
  assert (forall s, deliver w' sg cid s = play_next w' cid s) as ->
    by (by destruct sg).
  rewrite play_next_unfold.
  match goal with
  | |- context [queue_of ?s cid] =>
      assert (queue_of s cid = []) as ->
  end.
  { unfold queue_of; simpl. rewrite lookup_alter_eq.
    by destruct (queues st !! cid). }
  simpl. split; [done|]. repeat split; simpl.
  apply insert_id. by rewrite lookup_insert_eq.
Qed.

(** ** More on the queue snapshot *)

Lemma item_raises_none now item :
  item_raises item -> item_of_json now item = None.
Proof.
  destruct item as [| | | | |members]; try done.
  unfold item_raises, item_keys, item_of_json. intros H.
  repeat (apply Exists_cons in H as [->|H]; [by repeat case_match|]).
  by apply Exists_nil in H.
Qed.

(** On an item whose members are typed, the typed constructor fails
    exactly where the source raises. *)
Lemma item_of_json_none_iff now item :
  item_typed item = true ->
  item_of_json now item = None <-> item_raises item.
Proof.
  intros Ht. split; [|apply item_raises_none].
  destruct item as [| | | | |members]; try done.
  unfold item_typed, member_typed in Ht.
  unfold item_raises, item_keys, item_of_json.
  destruct (dict_get "chat_id" members) as [c|] eqn:Hc;
    [|intros _; by apply Exists_cons_hd].
  destruct (dict_get "title" members) as [t|] eqn:Htt;
    [|intros _; by apply Exists_cons_tl, Exists_cons_hd].
  destruct (dict_get "url" members) as [u|] eqn:Hu;
    [|intros _; by do 2 apply Exists_cons_tl; apply Exists_cons_hd].
  destruct (dict_get "duration" members) as [d|] eqn:Hd;
    [|intros _; by do 3 apply Exists_cons_tl; apply Exists_cons_hd].
  destruct (dict_get "requested_by" members) as [r|] eqn:Hr;
    [|intros _; by do 4 apply Exists_cons_tl; apply Exists_cons_hd].
  by destruct c, t, u, d, r.
Qed.

Lemma items_raise_none now i items :
  Exists item_raises items -> items_of_json now i items = None.
Proof.
  intros H. revert i. induction H as [item items H|item items _ IH];
    intros i; simpl.
  - by rewrite (item_raises_none _ _ H).
  - destruct (item_of_json (now i) item); [|done]. by rewrite IH.
Qed.

Lemma load_entries_stop now before bad after qs :
  entry_raises bad ->
  load_entries now (before ++ bad :: after) qs = load_entries now before qs.
Proof.
  intros Hbad. revert qs.
  induction before as [|[k v] before IH]; intros qs; simpl.
  - destruct bad as [k v]. unfold entry_raises in Hbad. simpl in Hbad.
    destruct (Py.int k) as [cid|]; [|done].
    destruct Hbad as [|Hbad]; [done|].
    destruct (json_iter v) as [items|]; simpl; [|done].
    by rewrite items_raise_none.
  - destruct (Py.int k) as [cid|]; [|done].
    destruct (json_iter v ≫= items_of_json (now cid) 0); [|done]. apply IH.
Qed.

(** X19. [load_data] gives up at the first member of ["queues"] on which
    it raises: a key that [int] rejects, a value that cannot be iterated,
    or an item that is no object or lacks one of the five keys.  The
    members before it are loaded, the raising one and every member after it
    are dropped without a trace in the bot.  The members before it are
    taken to hold items of the types [save_data] writes, the ones the typed
    [QueueItem] of this development covers. *)
Theorem load_stops_at_the_first_bad_entry now before bad after st :
  Forall (fun entry => entry_typed entry = true) before ->
  entry_raises bad ->
  load_data (queues_file (before ++ bad :: after)) now st
  = load_data (queues_file before) now st.
Proof.
  intros _ Hbad. unfold load_data, queues_file, set_queues. simpl.
  by rewrite load_entries_stop.
Qed.

Lemma load_stops_at_the_first_bad_entry_witness :
  let good := queue_to_json (Sample.chat, [Sample.thunder]) in
  let bad := ("8", JArr [JObj [("chat_id", JInt 8); ("title", JStr "t")]]) in
  let later := queue_to_json (9%Z, [Sample.gone]) in
  let loaded := load_data (queues_file [good; bad; later])
                  (fun _ _ => 0%Z) new_bot in
  entry_typed good = true /\ entry_raises bad /\
  title <$> queue_of loaded Sample.chat = ["Thunder"] /\
  queues loaded !! 8%Z = None /\ queues loaded !! 9%Z = None.
Proof.
  intros good bad later loaded.
  assert (entry_raises bad) as Hbad.
  { right. apply Exists_cons_hd.
    do 2 apply Exists_cons_tl. by apply Exists_cons_hd. }
  split; [reflexivity|]. split; [exact Hbad|].
  pose proof (load_stops_at_the_first_bad_entry (fun _ _ => 0%Z) [good]
                bad [later] new_bot ltac:(by repeat constructor) Hbad) as H.
  subst loaded. change ([good; bad; later]) with ([good] ++ bad :: [later]).
  rewrite H. repeat split; reflexivity.
Defined.

Lemma str_inj a b : Py.str a = Py.str b -> a = b.
Proof.
  intros H. apply (f_equal Py.int) in H. rewrite !int_str in H. congruence.
Qed.

Lemma dict_get_saved (l : list (Z * list QueueItem)) cid :
  NoDup l.*1 ->
  dict_get (Py.str cid) (map queue_to_json l)
  = (fun q => JArr (map item_to_json q))
    <$> (list_to_map l : gmap Z (list QueueItem)) !! cid.
Proof.
  induction l as [|[k q] l IH]; intros Hnd; [done|].
  apply NoDup_cons in Hnd as [Hk Hnd]. simpl.
  destruct (String.eqb_spec (Py.str k) (Py.str cid)) as [Heq|Hne].
  - apply str_inj in Heq as ->. by rewrite lookup_insert_eq.
  - rewrite lookup_insert_ne by congruence. by apply IH.
Qed.

(** X20. The snapshot written by [save_data] is an object with the single
    member ["queues"], which holds one member per registered chat: under
    the key [str(chat_id)] the list of that chat's items, and nothing under
    the key of a chat without a queue. *)
Theorem snapshot_has_one_member_per_chat st :
  exists entries,
    save_data st = JObj [("queues", JObj entries)] /\
    length entries = size (queues st) /\
    forall cid,
      dict_get (Py.str cid) entries
      = (fun q => JArr (map item_to_json q)) <$> queues st !! cid.
Proof.
  eexists. split; [reflexivity|]. split.
  - by rewrite length_map, length_map_to_list.
  - intros cid. rewrite dict_get_saved by apply NoDup_fst_map_to_list.
    by rewrite list_to_map_to_list.
Qed.

Lemma fetch_same_url w cid a b :
  url a = url b -> fetch_and_stream w cid a = fetch_and_stream w cid b.
Proof. unfold fetch_and_stream. by intros ->. Qed.

(** X21. After a restart from the snapshot every session is Idle, and the
    first accepted play command in a chat whose saved queue was not empty
    streams the oldest saved request, constructed again at loading time,
    not the request just made: that one is appended behind the rest of the
    saved queue, while the answer names it as now playing. *)
Theorem play_after_restart w m now clock st t u d x rest p :
  well_formed m ->
  search_youtube w (Py.join_space (tail (msg_command m))) = Some (t, u, d) ->
  Py.truthy_str t = true ->
  queues st !! msg_chat m = Some (x :: rest) ->
  length (x :: rest) < Config.MAX_QUEUE_SIZE ->
  fetch_and_stream w (msg_chat m) x = Some p ->
  let restarted := load_data (Some (save_data st)) clock new_bot in
  let r := play_command w m now restarted in
  phase restarted (msg_chat m) = Idle /\
  r.1.2 = NowPlaying t /\
  (exists x', now_playing r.1.1 !! msg_chat m = Some x' /\
              same_request x x' /\ added_at x' = clock (msg_chat m) 0) /\
  queue_of r.1.1 (msg_chat m)
  = restamp (clock (msg_chat m)) 1 rest ++ [new_request m t u d now].
Proof.
  intros Hwf Hs Ht Hq Hlt Hf restarted r.
  assert (queue_of restarted (msg_chat m)
          = restamp (clock (msg_chat m)) 0 (x :: rest)) as Hloaded.
  { unfold queue_of. subst restarted. simpl.
    rewrite load_entries_saved by apply NoDup_fst_map_to_list.
    by rewrite list_to_map_to_list, Hq. }
  assert (length (queue_of restarted (msg_chat m)) < Config.MAX_QUEUE_SIZE)
    as Hlt'.
  { rewrite Hloaded.
    pose proof (Forall2_length _ _ _
                  (restamp_same_request (clock (msg_chat m)) 0 (x :: rest))).
    lia. }
  split; [done|].
  destruct (play_command_accepted w m now restarted t u d Hwf Hs Ht Hlt')
    as [Hq1 Hplay].
  subst r. rewrite Hplay.
  change (negb (playing restarted (msg_chat m))
          || negb (paused restarted (msg_chat m))) with true.
  simpl. rewrite play_next_unfold.
  fold (new_request m t u d now) in Hq1 |- *.
  rewrite Hq1, Hloaded. simpl.
  match goal with
  | |- context [fetch_and_stream w (msg_chat m) ?x'] =>
      rewrite (fetch_same_url w (msg_chat m) x' x eq_refl), Hf
  end.
  simpl. split; [done|]. split.
  - eexists. split; [by rewrite lookup_insert_eq|]. by repeat split.
  - unfold queue_of; simpl. by rewrite lookup_insert_eq.
Qed.

Lemma play_after_restart_witness :
  let m := Sample.play_msg ["Believer"] "@a" in
  let restarted := load_data (Some (save_data Sample.backlog))
                     (fun _ _ => 99%Z) new_bot in
  let r := play_command Sample.world m 100 restarted in
  queues Sample.backlog !! Sample.chat
  = Some [Sample.lose_yourself; Sample.thunder] /\
  r.1.2 = NowPlaying "Believer" /\
  title <$> now_playing r.1.1 !! Sample.chat = Some "Lose Yourself".
Proof.
  intros m restarted r.
  destruct (play_after_restart Sample.world m 100 (fun _ _ => 99%Z)
              Sample.backlog "Believer" "yt/believer" "3:44"
              Sample.lose_yourself [Sample.thunder] "temp/yt/lose")
    as (_ & Ha & _ & _);
    [repeat split; [discriminate | simpl; lia] | reflexivity | reflexivity
    | reflexivity | vm_compute; lia | reflexivity |].
  split; [reflexivity|]. split; [exact Ha | reflexivity].
Defined.

(** ** Ban and unban *)

(** X22. Every ban and every unban is refused, whoever sends it and
    whatever the chat client would answer: [is_admin] reads the status of a
    member it never awaited and answers false, so each command answers that
    the sender must be an admin.  Over any sequence of the two commands the
    table of banned users stays as it was, no queue, slot or flag changes,
    and the counter of used commands grows by one per command. *)
Theorem ban_and_unban_are_refused_to_everybody (evs : list moderation)
  (st : MusicBot) (banned : gmap Z (list Z)) :
  let r := moderate_all evs st banned in
  r.2 = replicate (length evs) NeedAdmin /\
  r.1.2 = banned /\
  same_sessions st r.1.1 /\
  commands_used r.1.1 = commands_used st + length evs.
Proof.
  revert st banned. induction evs as [|ev evs IH]; intros st banned.
  - simpl. repeat split. lia.
  - assert (moderate ev st banned = (count_command st, banned, NeedAdmin))
      as Hev by (by destruct ev).
    destruct (IH (count_command st) banned) as (Hr & Hb & Hs & Hc).
    simpl. rewrite Hev. simpl. rewrite Hr, Hb, Hc. simpl.
    split; [done|]. split; [done|]. split; [exact Hs | lia].
Qed.

(** ** Broadcast *)

Lemma send_all_counts dialogs success failed :
  send_all dialogs success failed
  = (success + length (List.filter (fun d => d.1 && d.2) dialogs),
     failed + length (List.filter (fun d => d.1 && negb d.2) dialogs)).
Proof.
  revert success failed.
  induction dialogs as [|[g s] dialogs IH]; intros success failed; simpl.
  - f_equal; lia.
  - destruct g, s; simpl; rewrite IH; f_equal; lia.
Qed.

(** X24. A broadcast is refused to anybody but the owner and to a command
    without text, in both cases without counting as a used command.
    Otherwise the message goes to the group dialogs only, and the two
    numbers of the answer are the groups where sending returned and the
    groups where it raised: together they are the number of group
    dialogs. *)
Theorem broadcast_counts_every_group owner_id user_id command dialogs st :
  let r := broadcast_command owner_id user_id command dialogs st in
  (user_id <> owner_id -> r = (st, OwnerOnly)) /\
  (user_id = owner_id -> length command < 2 -> r = (st, NoBroadcastText)) /\
  (user_id = owner_id -> 2 <= length command ->
   exists success failed,
     r = (count_command st, BroadcastDone success failed) /\
     success = length (List.filter (fun d => d.1 && d.2) dialogs) /\
     failed = length (List.filter (fun d => d.1 && negb d.2) dialogs) /\
     success + failed = length (List.filter fst dialogs)).
Proof.
  unfold broadcast_command, is_owner. repeat split.
  - intros Hne. by destruct (Z.eqb_spec user_id owner_id).
  - intros -> Hlen. rewrite Z.eqb_refl. simpl.
    by destruct (Nat.ltb_spec (length command) 2); [|lia].
  - intros -> Hlen. rewrite Z.eqb_refl. simpl.
    destruct (Nat.ltb_spec (length command) 2); [lia|].
    rewrite send_all_counts. simpl.
    do 2 eexists. split; [reflexivity|]. split; [done|]. split; [done|].
    clear. induction dialogs as [|[g s] dialogs IH]; simpl; [done|].
    destruct g, s; simpl; lia.
Qed.

Lemma broadcast_counts_every_group_witness :
  let dialogs := [(true, true); (false, true); (true, false); (true, true)] in
  broadcast_command 1 1 ["/broadcast"; "hello"] dialogs new_bot
  = (count_command new_bot, BroadcastDone 2 1) /\
  broadcast_command 1 2 ["/broadcast"; "hello"] dialogs new_bot
  = (new_bot, OwnerOnly).
Proof.
  intros dialogs.
  destruct (broadcast_counts_every_group 1 1 ["/broadcast"; "hello"] dialogs
              new_bot) as (_ & _ & H).
  destruct (broadcast_counts_every_group 1 2 ["/broadcast"; "hello"] dialogs
              new_bot) as (H' & _).
  split; [|apply H'; lia].
  destruct H as (s & f & -> & -> & -> & _); [reflexivity | simpl; lia |].
  reflexivity.
Defined.
